(** * Doc-Weather-Assistant: the routing graph of [agent.py] and the
      page-range computation of [INGEST.py], embedded and verified.

    The three external collaborators (language model, vector store, weather
    HTTP service) are opaque: they are fields of a [World] record, and every
    call a node makes to one of them is appended to a trace, so that "one
    model call" and "without calling the weather service" are statements
    about that trace. A Python exception that the source does not catch is a
    [Raise] result. *)

From Stdlib Require Import String Ascii List ZArith Lia Bool Arith PeanoNat.
From Stdlib Require Import Sorted Permutation.
Import ListNotations.
Local Open Scope string_scope.

(* ================================================================== *)
(** * Part I.  Definitions                                             *)
(* ================================================================== *)

(** ** Python strings

    A Python [str] is modelled as a [string] whose characters are the code
    points 0..255.  [isspace], [lower], [strip] and the [in] operator are
    the interpreter's, restricted to that range. *)

Definition nl : string := String "010"%char EmptyString.
Definition dq : string := String "034"%char EmptyString.

(** [str.isspace] on one code point: TAB..CR, FS..US, SPACE, NEL, NBSP. *)
Definition isspace (c : ascii) : bool :=
  let n := nat_of_ascii c in
  (((9 <=? n) && (n <=? 13)) || ((28 <=? n) && (n <=? 32))
   || (n =? 133) || (n =? 160))%nat.

(** [str.lower] on one code point: A..Z and the Latin-1 capitals
    (U+00C0..U+00DE without U+00D7) move up by 32. *)
Definition lower_char (c : ascii) : ascii :=
  let n := nat_of_ascii c in
  if (((65 <=? n) && (n <=? 90))
      || ((192 <=? n) && (n <=? 222) && negb (n =? 215)))%nat
  then ascii_of_nat (n + 32) else c.

Fixpoint lower (s : string) : string :=
  match s with
  | EmptyString => EmptyString
  | String c r => String (lower_char c) (lower r)
  end.

Fixpoint lstrip (s : string) : string :=
  match s with
  | EmptyString => EmptyString
  | String c r => if isspace c then lstrip r else s
  end.

Fixpoint rstrip (s : string) : string :=
  match s with
  | EmptyString => EmptyString
  | String c r =>
      match rstrip r with
      | EmptyString => if isspace c then EmptyString else String c EmptyString
      | r' => String c r'
      end
  end.

Definition strip (s : string) : string := rstrip (lstrip s).

(** [needle in hay] for two [str]. *)
Fixpoint contains (needle hay : string) : bool :=
  prefix needle hay
  || match hay with
     | EmptyString => false
     | String _ r => contains needle r
     end.

(** The mathematical reading of "contains the substring". *)
Definition Substring (needle hay : string) : Prop :=
  exists pre post, hay = pre ++ needle ++ post.

(** [sep.join(parts)]. *)
Fixpoint join (sep : string) (parts : list string) : string :=
  match parts with
  | [] => EmptyString
  | [p] => p
  | p :: rest => p ++ sep ++ join sep rest
  end.

(** ** JSON values and Python dicts

    [fetch_weather] is annotated [-> dict] and [weather_data] is
    [dict | None]: a payload is a dict with string keys, kept in insertion
    order. *)

#[warnings="-register-all"]
Inductive json : Type :=
| JNull
| JBool (b : bool)
| JNum (mantissa exponent : Z)
| JStr (s : string)
| JArr (items : list json)
| JObj (fields : list (string * json)).

Definition payload : Type := list (string * json).

Fixpoint dict_get {V : Type} (k : string) (d : list (string * V)) : option V :=
  match d with
  | [] => None
  | (k', v) :: rest => if String.eqb k k' then Some v else dict_get k rest
  end.

Definition has_key {V : Type} (k : string) (d : list (string * V)) : bool :=
  match dict_get k d with Some _ => true | None => false end.

(** Truth value of a dict and of a list: non-empty. *)
Definition truthy {A : Type} (l : list A) : bool :=
  match l with [] => false | _ :: _ => true end.

(** Truth value of [state.get(key)]: [None] (absent) is false. *)
Definition truthy_opt {A : Type} (o : option (list A)) : bool :=
  match o with None => false | Some l => truthy l end.

Definition error_payload (msg : string) : payload := [("error", JStr msg)].

(** ** Results, exceptions, and the call trace *)

Inductive exn : Type :=
| ModelError (msg : string)          (* a failing language-model call *)
| StoreError (msg : string)          (* a failing vector-store call *)
| KeyError (key : string)            (* a missing dict key or edge label *)
| AttributeError (msg : string)      (* an attribute looked up on [None] *)
| GraphRecursionError.               (* the graph's step limit is exhausted *)

Inductive result (A : Type) : Type :=
| Ok (a : A)
| Raise (e : exn).
Arguments Ok {A} a.
Arguments Raise {A} e.

Inductive event : Type :=
| LlmInvoke (prompt : string)
| LlmStructured (query : string)
| RetrieverInvoke (query : string) (k : nat)
| HttpGet (url : string) (params : list (string * string)).

Definition trace : Type := list event.

(** A computation reads the calls made so far and returns its result with
    the calls made so far after it. *)
Definition M (A : Type) : Type := trace -> result A * trace.

Definition ret {A : Type} (a : A) : M A := fun tr => (Ok a, tr).

Definition bind {A B : Type} (m : M A) (f : A -> M B) : M B :=
  fun tr =>
    match m tr with
    | (Ok a, tr') => f a tr'
    | (Raise e, tr') => (Raise e, tr')
    end.

Notation "x <- m ;; k" := (bind m (fun x => k))
  (at level 61, m at next level, right associativity).

(** Perform one external call: log it, then return or raise what the
    collaborator answered. *)
Definition call {A : Type} (e : event) (answer : result A) : M A :=
  fun tr => (answer, (tr ++ [e])%list).

Definition is_model_call (e : event) : bool :=
  match e with
  | LlmInvoke _ | LlmStructured _ => true
  | _ => false
  end.

Definition is_http_call (e : event) : bool :=
  match e with HttpGet _ _ => true | _ => false end.

Definition model_calls (tr : trace) : nat := length (filter is_model_call tr).
Definition http_calls (tr : trace) : nat := length (filter is_http_call tr).

(** ** The external collaborators *)

(** [WeatherInput]: the single-field schema of the structured extraction. *)
Record WeatherInput : Type := { city : string }.

(** A chunk returned by the vector store: a LangChain [Document]. *)
Record Metadata : Type := {
  md_service_name : string;
  md_service_id : string;
  md_section : string;
  md_page : nat
}.

Record Document : Type := {
  page_content : string;
  metadata : Metadata
}.

(** What [requests.get] hands back when it returns.  [reason_text] is the
    text of the [HTTPError] that [raise_for_status] builds for this
    response; [json_body] is what [response.json()] does: the parsed dict,
    or the text of the [JSONDecodeError] (a [RequestException]). *)
Record http_response : Type := {
  status_code : Z;
  reason_text : string;
  json_body : string + payload
}.

(** What the weather service and the transport do with one request:
    [requests.get] raises a [RequestException] (connection failure,
    timeout, ...), [msg] naming the failure, or returns a response.  A
    request that never returns and an exception of another class are not
    values of this type: the source has no timeout and no clause for them,
    and nothing is stated about them here. *)
Inductive get_outcome : Type :=
| GetRaises (msg : string)
| GetReturns (r : http_response).

(** [llm_invoke p] is [llm.invoke(p).content] for a model whose replies
    have text content (a reply whose content is a list of blocks is not a
    value of this type).  [llm_structured q] is what the structured-output
    runnable returns for [q]: a [WeatherInput], or [None] when the model's
    reply carries no tool call.  [requests_get] is a fixed function of the
    request.  [str_of_exception n msg] is [str(req_err)] for the exception
    object raised by the call made after [n] earlier calls, for the failure
    [msg]: that text is built anew at each call and may embed per-call data
    such as the address of the connection object. *)
Record World : Type := {
  llm_invoke : string -> result string;
  llm_structured : string -> result (option WeatherInput);
  similarity_search : string -> nat -> result (list Document);
  requests_get : string -> list (string * string) -> get_outcome;
  str_of_exception : nat -> string -> string;
  OPENWEATHERMAP_API_KEY : string;
  str_of_dict : payload -> string                (* [str(d)] for a dict [d] *)
}.

(** ** [fetch_weather] (agent.py, lines 40-58) *)

(** How the [try] block ends: with the value it returns, or with one of
    the two exceptions of [requests] that the [except] clauses name.  An
    [HTTPError] comes from [raise_for_status], so [response] is bound when
    it is caught. *)
Inductive try_outcome : Type :=
| Returned (body : payload)
| HTTPError (http_err : string) (response : http_response)
| RequestException (req_err : string).

(** [response.raise_for_status()]: an [HTTPError] for 4xx and 5xx. *)
Definition raise_for_status (r : http_response) : option string :=
  if ((400 <=? status_code r) && (status_code r <? 600))%Z
  then Some (reason_text r)
  else None.

Definition base_url : string := "http://api.openweathermap.org/data/2.5/weather".

Definition weather_params (w : World) (city : string) : list (string * string) :=
  [("q", city); ("appid", OPENWEATHERMAP_API_KEY w); ("units", "metric")].

(** The body of the [try], for the call made after [serial] earlier
    calls.  The text carried by an exception is its [str]: that of a
    [RequestException] raised by [requests.get] is built at this call, that
    of an [HTTPError] and of a [JSONDecodeError] is fixed by the response. *)
Definition fetch_weather_try (w : World) (serial : nat) (city : string)
  : try_outcome :=
  match requests_get w base_url (weather_params w city) with
  | GetRaises msg => RequestException (str_of_exception w serial msg)
  | GetReturns r =>
      match raise_for_status r with
      | Some http_err => HTTPError http_err r
      | None =>
          match json_body r with
          | inr body => Returned body
          | inl msg => RequestException msg
          end
      end
  end.

(** The [return] of the [try] and the two [except] clauses. *)
Definition fetch_weather_result (w : World) (serial : nat) (city : string)
  : payload :=
  match fetch_weather_try w serial city with
  | Returned body => body
  | HTTPError http_err response =>
      if (status_code response =? 404)%Z
      then error_payload ("City '" ++ city ++ "' not found.")
      else error_payload ("HTTP error occurred: " ++ http_err)
  | RequestException req_err =>
      error_payload ("An error occurred: " ++ req_err)
  end.

Definition fetch_weather (w : World) (city : string) : M payload :=
  fun tr =>
    (Ok (fetch_weather_result w (length tr) city),
     (tr ++ [HttpGet base_url (weather_params w city)])%list).

(** ** The graph state (agent.py, lines 20-27) *)

Record AgentState : Type := {
  query : string;
  messages : list string;
  response : option string;
  sender : option string;
  documents : option (list string);
  weather_data : option payload;
  route : option string
}.

(** The dict a node returns: the keys it sets. *)
Record Update : Type := {
  set_route : option string;
  set_documents : option (list string);
  set_weather_data : option payload;
  set_response : option string;
  set_sender : option string
}.

Definition no_update : Update :=
  {| set_route := None; set_documents := None; set_weather_data := None;
     set_response := None; set_sender := None |}.

Definition override {A : Type} (new old : option A) : option A :=
  match new with Some _ => new | None => old end.

(** Merging a node's dict into the state: a key that is set replaces the
    old value, every other key is kept. *)
Definition apply_update (st : AgentState) (u : Update) : AgentState :=
  {| query := query st;
     messages := messages st;
     response := override (set_response u) (response st);
     sender := override (set_sender u) (sender st);
     documents := override (set_documents u) (documents st);
     weather_data := override (set_weather_data u) (weather_data st);
     route := override (set_route u) (route st) |}.

(** The inputs of a turn, as [main.py] builds them: only [messages] and
    [query] are present. *)
Definition initial_state (q : string) (msgs : list string) : AgentState :=
  {| query := q; messages := msgs; response := None; sender := None;
     documents := None; weather_data := None; route := None |}.

(** ** The four nodes (agent.py, lines 93-186) *)

Definition router_prompt (q : string) : string :=
  "Given the user query, should I use the 'weather_tool' for real-time weather information " ++ nl ++
  "    or the 'rag_tool' for answering questions based on the provided ISO 14229-1 document?" ++ nl ++
  nl ++
  "    User Query: " ++ dq ++ q ++ dq ++ nl ++
  nl ++
  "    Respond with only 'weather' or 'rag'." ++ nl ++
  "    ".

(** The normalisation of the model's answer: [content.strip().lower()]. *)
Definition normalize (content : string) : string := lower (strip content).

(** The branch of [router_node] on the normalised decision. *)
Definition route_of_decision (decision : string) : string :=
  if contains "weather" decision then "weather" else "rag".

Definition router_node (w : World) (st : AgentState) : M Update :=
  let prompt := router_prompt (query st) in
  content <- call (LlmInvoke prompt) (llm_invoke w prompt) ;;
  let decision := normalize content in
  ret {| set_route := Some (route_of_decision decision);
         set_documents := None; set_weather_data := None;
         set_response := None; set_sender := None |}.

(** [search_kwargs={"k": 5}] of the retriever. *)
Definition retriever_k : nat := 5.

Definition retriever_invoke (w : World) (q : string) : M (list Document) :=
  call (RetrieverInvoke q retriever_k) (similarity_search w q retriever_k).

Definition rag_node (w : World) (st : AgentState) : M Update :=
  docs <- retriever_invoke w (query st) ;;
  let documents_content := map page_content docs in
  ret {| set_route := None;
         set_documents := Some documents_content;
         set_weather_data := None; set_response := None;
         set_sender := Some "RAG Tool" |}.

Definition no_city_message : string := "Could not identify a city in the query.".

Definition weather_update (p : payload) : Update :=
  {| set_route := None; set_documents := None;
     set_weather_data := Some p; set_response := None;
     set_sender := Some "Weather Tool" |}.

Definition none_has_no_city : string :=
  "'NoneType' object has no attribute 'city'".

Definition weather_node (w : World) (st : AgentState) : M Update :=
  result <- call (LlmStructured (query st)) (llm_structured w (query st)) ;;
  match result with
  | None => fun tr => (Raise (AttributeError none_has_no_city), tr)
  | Some result =>
      match city result with
      | EmptyString => ret (weather_update (error_payload no_city_message))
      | String _ _ =>
          weather_info <- fetch_weather w (city result) ;;
          ret (weather_update weather_info)
      end
  end.

Definition rag_prompt (context q : string) : string :=
  "Based on the following context from the ISO 14229-1 document, " ++ nl ++
  "        provide a concise answer to the user's question." ++ nl ++
  nl ++
  "        Context:" ++ nl ++
  "        " ++ context ++ nl ++
  nl ++
  "        Question:" ++ nl ++
  "        " ++ q ++ nl ++
  "        ".

Definition weather_prompt (q shown : string) : string :=
  "The user asked: " ++ dq ++ q ++ dq ++ nl ++
  "        Here is the real-time weather data: " ++ shown ++ "." ++ nl ++
  "        " ++ nl ++
  "        Generate a friendly, conversational response summarizing this weather information." ++ nl ++
  "        If there is an error in the data, state it clearly." ++ nl ++
  "        ".

Definition fallback_response : string :=
  "I'm sorry, I couldn't process that request.".

Definition agent_update (text : string) : Update :=
  {| set_route := None; set_documents := None; set_weather_data := None;
     set_response := Some text; set_sender := Some "Agent" |}.

Definition response_generator_node (w : World) (st : AgentState) : M Update :=
  match documents st with
  | Some ((_ :: _) as docs) =>
      let context := join (nl ++ nl) docs in
      let prompt := rag_prompt context (query st) in
      content <- call (LlmInvoke prompt) (llm_invoke w prompt) ;;
      ret (agent_update content)
  | _ =>
      match weather_data st with
      | Some ((_ :: _) as wd) =>
          let prompt := weather_prompt (query st) (str_of_dict w wd) in
          content <- call (LlmInvoke prompt) (llm_invoke w prompt) ;;
          ret (agent_update content)
      | _ => ret (agent_update fallback_response)
      end
  end.

(** What a branch of the responder that asks the model amounts to: one
    model call with [prompt], its answer becoming the response. *)
Definition answered_by (w : World) (prompt : string) (tr : trace)
  : result Update * trace :=
  (match llm_invoke w prompt with
   | Ok content => Ok (agent_update content)
   | Raise e => Raise e
   end,
   (tr ++ [LlmInvoke prompt])%list).

(** ** Graph assembly (agent.py, lines 193-223) *)

Inductive node : Type := router | rag_tool | weather_tool | responder | END.

Definition node_eqb (a b : node) : bool :=
  match a, b with
  | router, router | rag_tool, rag_tool | weather_tool, weather_tool
  | responder, responder | END, END => true
  | _, _ => false
  end.

Fixpoint node_assoc {V : Type} (n : node) (l : list (node * V)) : option V :=
  match l with
  | [] => None
  | (m, v) :: rest => if node_eqb n m then Some v else node_assoc n rest
  end.

Definition entry_point : node := router.

(** [add_conditional_edges]: the source node and its path map. *)
Definition conditional_edges : list (node * list (string * node)) :=
  [(router, [("rag", rag_tool); ("weather", weather_tool)])].

(** [add_edge]. *)
Definition edges : list (node * node) :=
  [(rag_tool, responder); (weather_tool, responder); (responder, END)].

(** The node that follows [n] when the state's route is [r]. *)
Definition successor (r : option string) (n : node) : option node :=
  match node_assoc n conditional_edges with
  | Some path_map =>
      match r with
      | Some label => dict_get label path_map
      | None => None
      end
  | None => node_assoc n edges
  end.

Definition node_fn (w : World) (n : node) : AgentState -> M Update :=
  match n with
  | router => router_node w
  | rag_tool => rag_node w
  | weather_tool => weather_node w
  | responder => response_generator_node w
  | END => fun _ => ret no_update
  end.

Definition raise {A : Type} (e : exn) : M A := fun tr => (Raise e, tr).

(** The default step limit of a compiled graph. *)
Definition recursion_limit : nat := 25.

(** Run the graph from node [n]: execute the node, merge its update, follow
    the edge.  The result is the final state with the nodes executed. *)
Fixpoint run (fuel : nat) (w : World) (n : node) (st : AgentState)
  (visited : list node) : M (AgentState * list node) :=
  match n with
  | END => ret (st, visited)
  | _ =>
      match fuel with
      | O => raise GraphRecursionError
      | S fuel' =>
          u <- node_fn w n st ;;
          let st' := apply_update st u in
          match successor (route st') n with
          | Some n' => run fuel' w n' st' (visited ++ [n])%list
          | None =>
              raise (KeyError (match route st' with Some r => r | None => "route" end))
          end
      end
  end.

(** [app.invoke(inputs)]. *)
Definition app_invoke (w : World) (inputs : AgentState)
  : M (AgentState * list node) :=
  run recursion_limit w entry_point inputs [].

(** A sequence of nodes in which each one is followed by its successor
    under route [r]. *)
Fixpoint is_path (r : option string) (p : list node) : bool :=
  match p with
  | a :: ((b :: _) as rest) =>
      match successor r a with
      | Some b' => node_eqb b b' && is_path r rest
      | None => false
      end
  | _ => true
  end.

(** ** Page ranges of the ingestion parser (INGEST.py, lines 28-63) *)

(** One value of [service_index]; the key [end] is absent until the end
    markers are added. *)
Record ServiceInfo : Type := {
  service_name : string;
  service_id : string;
  section : string;
  start : nat;
  end_ : option nat
}.

(** [d[k] = v] on an insertion-ordered dict: an existing key keeps its
    position and gets the new value, a new key goes last. *)
Fixpoint dict_set {V : Type} (k : string) (v : V) (d : list (string * V))
  : list (string * V) :=
  match d with
  | [] => [(k, v)]
  | (k', v') :: rest =>
      if String.eqb k k' then (k', v) :: rest else (k', v') :: dict_set k v rest
  end.

Definition dict_values {V : Type} (d : list (string * V)) : list V :=
  map snd d.

(** A tuple returned by [re.findall]: section, service name, hex digits. *)
Definition service_match : Type := (string * string * string)%type.

Definition record_match (page_num : nat) (idx : list (string * ServiceInfo))
  (m : service_match) : list (string * ServiceInfo) :=
  let '(section_num, name, service_id_hex) := m in
  dict_set name
    {| service_name := name;
       service_id := "0x" ++ service_id_hex;
       section := section_num;
       start := page_num;
       end_ := None |}
    idx.

(** The loop over the pages, from page [page_num] on. *)
Fixpoint scan_pages (findall : string -> list service_match)
  (pages : list string) (page_num : nat) (idx : list (string * ServiceInfo))
  : list (string * ServiceInfo) :=
  match pages with
  | [] => idx
  | text :: rest =>
      scan_pages findall rest (S page_num)
        (fold_left (record_match page_num) (findall text) idx)
  end.

(** [sorted(..., key=lambda x: x["start"])]: a stable sort. *)
Fixpoint insert_by_start (x : ServiceInfo) (l : list ServiceInfo)
  : list ServiceInfo :=
  match l with
  | [] => [x]
  | y :: rest =>
      if (start x <=? start y)%nat then x :: l else y :: insert_by_start x rest
  end.

Fixpoint sorted_by_start (l : list ServiceInfo) : list ServiceInfo :=
  match l with
  | [] => []
  | x :: rest => insert_by_start x (sorted_by_start rest)
  end.

Definition with_end (r : ServiceInfo) (e : nat) : ServiceInfo :=
  {| service_name := service_name r; service_id := service_id r;
     section := section r; start := start r; end_ := Some e |}.

(** The loop that adds the end markers; [n] is [len(doc)]. *)
Fixpoint add_end_markers (n : nat) (l : list ServiceInfo) : list ServiceInfo :=
  match l with
  | [] => []
  | r :: rest =>
      match rest with
      | [] => [with_end r n]
      | r' :: _ => with_end r (start r') :: add_end_markers n rest
      end
  end.

(** [page_ranges] as it stands after line 63.  [pages] holds the
    whitespace-normalised text of each page and [findall] the matches of
    the service pattern in one such text. *)
Definition page_ranges (findall : string -> list service_match)
  (pages : list string) : list ServiceInfo :=
  let service_index := scan_pages findall pages 0 [] in
  let ranges := dict_values service_index in
  let ranges := sorted_by_start ranges in
  let ranges := firstn 5 ranges in
  add_end_markers (length pages) ranges.

(** The page numbers [range(info["start"], info["end"])] of one range. *)
Definition pages_of (r : ServiceInfo) : list nat :=
  match end_ r with
  | Some e => seq (start r) (e - start r)
  | None => []
  end.


(** ** Test doubles

    Concrete collaborators in the manner of the mocks of [tests/]: a model
    with a canned answer, a store with canned chunks, a weather service
    with a canned response. *)

Definition haze_body : payload :=
  [("main", JObj [("temp", JNum 25 0)]);
   ("weather", JArr [JObj [("description", JStr "haze")]])].

Definition ok_response : http_response :=
  {| status_code := 200; reason_text := EmptyString; json_body := inr haze_body |}.

Definition not_found_response : http_response :=
  {| status_code := 404;
     reason_text := "404 Client Error: Not Found for url";
     json_body := inr [("cod", JStr "404"); ("message", JStr "city not found")] |}.


Definition empty_body_response : http_response :=
  {| status_code := 200; reason_text := EmptyString; json_body := inr [] |}.

Definition chunk (text : string) (page : nat) : Document :=
  {| page_content := text;
     metadata := {| md_service_name := "ReadDTCInformation";
                    md_service_id := "0x19";
                    md_section := "11.3";
                    md_page := page |} |}.

Definition mock_world (answer : result string) (extracted : result WeatherInput)
  (chunks : list Document) (http : get_outcome) : World :=
  {| llm_invoke := fun _ => answer;
     llm_structured := fun _ => match extracted with
                                | Ok wi => Ok (Some wi)
                                | Raise e => Raise e
                                end;
     similarity_search := fun _ k => Ok (firstn k chunks);
     requests_get := fun _ _ => http;
     str_of_exception := fun _ msg => msg;
     OPENWEATHERMAP_API_KEY := "test-key";
     str_of_dict := fun d => if truthy d then "{...}" else "{}" |}.

Definition weather_query : string := "what is the weather like in Bengaluru?".
Definition rag_query : string := "what is Diagnostic Trouble Code?".

(** An unreachable weather service whose connection error prints the
    address of the connection object, a new one at each call. *)
Definition unreachable_world : World :=
  {| llm_invoke := fun _ => Ok "weather";
     llm_structured := fun _ => Ok (Some {| city := "Pune" |});
     similarity_search := fun _ _ => Ok [];
     requests_get := fun _ _ => GetRaises "Connection refused";
     str_of_exception :=
       fun n msg =>
         msg ++ " (<HTTPConnection object at 0x7f"
             ++ String (ascii_of_nat (48 + n)) EmptyString ++ ">)";
     OPENWEATHERMAP_API_KEY := "test-key";
     str_of_dict := fun d => if truthy d then "{...}" else "{}" |}.

(** A model whose structured reply carries no tool call. *)
Definition no_tool_call_world : World :=
  {| llm_invoke := fun _ => Ok "weather";
     llm_structured := fun _ => Ok None;
     similarity_search := fun _ _ => Ok [];
     requests_get := fun _ _ => GetReturns ok_response;
     str_of_exception := fun _ msg => msg;
     OPENWEATHERMAP_API_KEY := "test-key";
     str_of_dict := fun d => if truthy d then "{...}" else "{}" |}.

(** A model that answers the routing prompt with "rag" and any other
    prompt with an echo of it. *)
Definition echo_world : World :=
  {| llm_invoke :=
       fun p => if prefix "Given the user query" p
                then Ok "rag" else Ok ("Answer to: " ++ p);
     llm_structured := fun _ => Ok (Some {| city := "Pune" |});
     similarity_search := fun _ k => Ok (firstn k [chunk "DTC is a code." 231]);
     requests_get := fun _ _ => GetReturns ok_response;
     str_of_exception := fun _ msg => msg;
     OPENWEATHERMAP_API_KEY := "test-key";
     str_of_dict := fun d => if truthy d then "{...}" else "{}" |}.

(** The state in which the weather node leaves a turn whose weather
    service answered 200 with the empty JSON object. *)
Definition empty_weather_state : AgentState :=
  apply_update (initial_state weather_query []) (weather_update []).

Definition chatty_world : World :=
  mock_world (Ok "It is hazy, 25 degrees.") (Ok {| city := "Bengaluru" |})
             [chunk "DTC is a code." 231; chunk "DTC is a code." 232;
              chunk "Service 0x19 reads it." 240]
             (GetReturns ok_response).

(** A model that answers every prompt with empty content. *)
Definition silent_world : World :=
  mock_world (Ok EmptyString) (Ok {| city := "Bengaluru" |})
             [chunk "DTC is a code." 231] (GetReturns ok_response).

(** The number of edges from a node to [END]. *)
Definition depth (n : node) : nat :=
  match n with
  | router => 3
  | rag_tool | weather_tool => 2
  | responder => 1
  | END => 0
  end.

(** A seven-page document: an index page naming three services, then
    their definitions; the tuples stand for what the service pattern finds
    on each page. *)
Definition demo_findall (text : string) : list service_match :=
  if String.eqb text "index" then
    [("9.2", "DiagnosticSessionControl", "10"); ("9.3", "ECUReset", "11");
     ("11.3", "ReadDTCInformation", "19")]
  else if String.eqb text "session" then
    [("9.2", "DiagnosticSessionControl", "10")]
  else if String.eqb text "reset+dtc" then
    [("9.3", "ECUReset", "11"); ("11.3", "ReadDTCInformation", "19")]
  else [].

Definition demo_pages : list string :=
  ["cover"; "index"; "scope"; "session"; "tables"; "reset+dtc"; "annex"].

(** ** Normalisation, in the words of the specification

    The claim about the router speaks of the decision "whitespace-stripped,
    lowercased".  The definitions below say what that means without the
    functions [strip] and [lower] of the embedding: whitespace and
    lower-casing are given by tables of code points, and a string is the
    normal form of a raw string when the raw string is a run of whitespace,
    a core with no whitespace at either end, and a run of whitespace, the
    normal form being the core lower-cased. *)

Definition spec_whitespace_codes : list nat :=
  [9; 10; 11; 12; 13; 28; 29; 30; 31; 32; 133; 160].

Definition spec_is_whitespace (c : ascii) : bool :=
  existsb (Nat.eqb (nat_of_ascii c)) spec_whitespace_codes.

(** Upper-case code point, lower-case code point. *)
Definition spec_lowercase_table : list (nat * nat) :=
  [
   (65, 97); (66, 98); (67, 99); (68, 100); (69, 101); (70, 102); (71, 103);
   (72, 104); (73, 105); (74, 106); (75, 107); (76, 108); (77, 109); (78, 110);
   (79, 111); (80, 112); (81, 113); (82, 114); (83, 115); (84, 116); (85, 117);
   (86, 118); (87, 119); (88, 120); (89, 121); (90, 122); (192, 224); (193, 225);
   (194, 226); (195, 227); (196, 228); (197, 229); (198, 230); (199, 231); (200, 232);
   (201, 233); (202, 234); (203, 235); (204, 236); (205, 237); (206, 238); (207, 239);
   (208, 240); (209, 241); (210, 242); (211, 243); (212, 244); (213, 245); (214, 246);
   (216, 248); (217, 249); (218, 250); (219, 251); (220, 252); (221, 253); (222, 254)
  ].

Definition spec_lowercase (c : ascii) : ascii :=
  match find (fun p => (fst p =? nat_of_ascii c)%nat) spec_lowercase_table with
  | Some (_, l) => ascii_of_nat l
  | None => c
  end.

Fixpoint spec_lowercased (s : string) : string :=
  match s with
  | EmptyString => EmptyString
  | String c r => String (spec_lowercase c) (spec_lowercased r)
  end.

Fixpoint all_whitespace (s : string) : Prop :=
  match s with
  | EmptyString => True
  | String c r => spec_is_whitespace c = true /\ all_whitespace r
  end.

Definition starts_clean (s : string) : Prop :=
  match s with
  | EmptyString => True
  | String c _ => spec_is_whitespace c = false
  end.

Fixpoint ends_clean (s : string) : Prop :=
  match s with
  | EmptyString => True
  | String c r =>
      match r with
      | EmptyString => spec_is_whitespace c = false
      | String _ _ => ends_clean r
      end
  end.

Definition SpecNormalized (raw d : string) : Prop :=
  exists pre core post,
    raw = pre ++ core ++ post
    /\ all_whitespace pre /\ all_whitespace post
    /\ starts_clean core /\ ends_clean core
    /\ d = spec_lowercased core.

(** No character of [s] is whitespace. *)
Fixpoint no_space_in (s : string) : Prop :=
  match s with
  | EmptyString => True
  | String c r => isspace c = false /\ no_space_in r
  end.

(** ** Start-up checks (agent.py, lines 8-14)

    [environ] is [os.environ] after [load_dotenv()]. *)

Definition environ : Type := list (string * string).

Definition getenv (env : environ) (name : string) : option string :=
  dict_get name env.

(** The two checks at import time: the text of the [ValueError], or
    nothing when the module goes on loading. *)
Definition check_api_keys (env : environ) : option string :=
  if negb (has_key "GOOGLE_API_KEY" env)
  then Some "Google API key not found in .env file"
  else if negb (has_key "OPENWEATHERMAP_API_KEY" env)
  then Some "OpenWeatherMap API key not found in .env file"
  else None.

Definition is_retriever_call (e : event) : bool :=
  match e with RetrieverInvoke _ _ => true | _ => false end.

Definition retriever_calls (tr : trace) : nat :=
  length (filter is_retriever_call tr).

(** ** The matches of a document, in reading order (INGEST.py, lines 33-49)

    The two nested loops visit the matches page by page; [all_matches]
    lists them with their page number in that order. *)

Fixpoint all_matches (findall : string -> list service_match)
  (pages : list string) (page_num : nat) : list (nat * service_match) :=
  match pages with
  | [] => []
  | text :: rest =>
      (map (pair page_num) (findall text)
       ++ all_matches findall rest (S page_num))%list
  end.

Definition match_name (m : service_match) : string :=
  let '(_, name, _) := m in name.

(** The dict built for one match on page [page_num] (lines 44-49). *)
Definition info_of_match (page_num : nat) (m : service_match) : ServiceInfo :=
  let '(section_num, name, service_id_hex) := m in
  {| service_name := name;
     service_id := "0x" ++ service_id_hex;
     section := section_num;
     start := page_num;
     end_ := None |}.

(** The last match that names [name], as a specification of what the
    overwriting loop leaves under that key. *)
Fixpoint last_match (name : string) (evs : list (nat * service_match))
  : option ServiceInfo :=
  match evs with
  | [] => None
  | (page_num, m) :: rest =>
      match last_match name rest with
      | Some i => Some i
      | None =>
          if String.eqb name (match_name m)
          then Some (info_of_match page_num m)
          else None
      end
  end.

(** The fields of a range that come from the match. *)
Definition info (r : ServiceInfo) : string * string * string * nat :=
  (service_name r, service_id r, section r, start r).

(** ** Page documents (INGEST.py, lines 66-109) *)

(** What [pdfplumber] gives for one page: [extract_text()], which may be
    [None], and [extract_tables()], tables of rows of cells that may be
    [None]. *)
Record plumber_page : Type := {
  extract_text : option string;
  extract_tables : list (list (list (option string)))
}.

Definition cell_text (cell : option string) : string :=
  match cell with None => EmptyString | Some c => c end.

Definition table_text (table : list (list (option string))) : string :=
  join nl (map (fun row => join " | " (map cell_text row)) table).

Definition page_text_of (page : plumber_page) : string :=
  match extract_text page with
  | Some t => t
  | None => EmptyString
  end.

Definition page_content_of (page : plumber_page) : string :=
  "## Page Text" ++ nl ++ strip (page_text_of page) ++ nl ++ nl ++
  "## Page Tables" ++ nl ++
  join (nl ++ nl) (map table_text (extract_tables page)).

(** The body of the inner loop for one [page_num]: nothing when the page
    is past the end of [pdf.pages], else one document. *)
Definition page_document (range : ServiceInfo) (pdf_pages : list plumber_page)
  (page_num : nat) : list Document :=
  match nth_error pdf_pages page_num with
  | None => []
  | Some page =>
      [{| page_content := page_content_of page;
          metadata := {| md_service_name := service_name range;
                         md_service_id := service_id range;
                         md_section := section range;
                         md_page := page_num + 1 |} |}]
  end.

Definition range_documents (pdf_pages : list plumber_page)
  (range : ServiceInfo) : list Document :=
  flat_map (page_document range pdf_pages) (pages_of range).

(** [parse_iso14229_pdf]: [doc_pages] is the text of each page as PyMuPDF
    reads it (whitespace-normalised), [pdf_pages] the pages of the same
    file as pdfplumber reads them. *)
Definition parse_iso14229_pdf (findall : string -> list service_match)
  (doc_pages : list string) (pdf_pages : list plumber_page) : list Document :=
  flat_map (range_documents pdf_pages) (page_ranges findall doc_pages).

Definition doc_page (d : Document) : nat := md_page (metadata d).

(** ** The chat shell (main.py) *)

Inductive chat_message : Type :=
| HumanMessage (content : string)
| AIMessage (content : string).

Definition greeting : list chat_message :=
  [AIMessage "Hello! How can I assist you today?"].

Definition error_reply : string := "I'm sorry, I encountered an error.".

(** The inputs of a turn: the prompt as the only message and as query. *)
Definition chat_inputs (prompt : string) : AgentState :=
  initial_state prompt [prompt].

(** One run of the script: [session] is [st.session_state.messages] when
    the key exists, [prompt] what [st.chat_input] returned.  The result is
    the session messages after the run and the exception that ended the
    run, if any. *)
Definition script_run (w : World) (session : option (list chat_message))
  (prompt : option string) (tr : trace)
  : list chat_message * option exn * trace :=
  let messages := match session with None => greeting | Some m => m end in
  match prompt with
  | None | Some EmptyString => (messages, None, tr)
  | Some p =>
      let messages := (messages ++ [HumanMessage p])%list in
      match app_invoke w (chat_inputs p) tr with
      | (Raise e, tr') => (messages, Some e, tr')
      | (Ok (result, _), tr') =>
          let final_response :=
            match response result with
            | Some r => r
            | None => error_reply
            end in
          ((messages ++ [AIMessage final_response])%list, None, tr')
      end
  end.

(** A user session: one script run per prompt, the session messages
    carried from run to run. *)
Fixpoint chat_session (w : World) (session : option (list chat_message))
  (prompts : list (option string)) (tr : trace)
  : list chat_message * trace :=
  match prompts with
  | [] => (match session with None => greeting | Some m => m end, tr)
  | p :: rest =>
      let '(messages, _, tr') := script_run w session p tr in
      chat_session w (Some messages) rest tr'
  end.

(** The contents of the user messages of a log, in order. *)
Definition human_contents (log : list chat_message) : list string :=
  flat_map (fun m => match m with
                     | HumanMessage c => [c]
                     | AIMessage _ => []
                     end) log.

(** The prompts that pass the test [if prompt := ...], in order. *)
Definition submitted (prompts : list (option string)) : list string :=
  flat_map (fun p => match p with
                     | Some (String a r) => [String a r]
                     | _ => []
                     end) prompts.

(* ================================================================== *)
(** * Part II.  Theorems                                               *)
(* ================================================================== *)

(** ** Strings *)

Lemma prefix_spec (p s : string) :
  prefix p s = true <-> exists t, s = p ++ t.
Proof.
  revert s; induction p as [|a p IH]; intros s.
  - split; [intros _; exists s; reflexivity | intros _; destruct s; reflexivity].
  - destruct s as [|b s]; simpl.
    + split; [discriminate | intros [t H]; discriminate].
    + destruct (ascii_dec a b) as [->|Hab].
      * rewrite IH. split; intros [t H]; exists t; [now rewrite H | now inversion H].
      * split; [discriminate | intros [t H]; inversion H; subst; now elim Hab].
Qed.

Lemma contains_spec (needle hay : string) :
  contains needle hay = true <-> Substring needle hay.
Proof.
  split.
  - induction hay as [|c hay IH]; cbn [contains]; rewrite orb_true_iff;
      intros [H|H].
    + apply prefix_spec in H as [t H]. exists EmptyString, t. exact H.
    + discriminate.
    + apply prefix_spec in H as [t H]. exists EmptyString, t. exact H.
    + destruct (IH H) as (pre & post & E).
      exists (String c pre), post. simpl. now rewrite E.
  - intros (pre & post & E). subst hay.
    induction pre as [|c pre IH].
    + change (EmptyString ++ needle ++ post) with (needle ++ post).
      assert (P : prefix needle (needle ++ post) = true)
        by (apply prefix_spec; now exists post).
      destruct (needle ++ post); cbn [contains]; rewrite P; reflexivity.
    + change (String c pre ++ needle ++ post)
        with (String c (pre ++ needle ++ post)).
      cbn [contains]. rewrite IH. apply orb_true_r.
Qed.

Lemma contains_false_spec (needle hay : string) :
  contains needle hay = false <-> ~ Substring needle hay.
Proof.
  rewrite <- contains_spec. destruct (contains needle hay); split; intros H;
    try reflexivity; try discriminate; try (intros H'; discriminate).
  exfalso; apply H; reflexivity.
Qed.


(** ** The trace *)

Lemma model_calls_app (t1 t2 : trace) :
  model_calls (t1 ++ t2)%list = model_calls t1 + model_calls t2.
Proof. unfold model_calls. now rewrite filter_app, length_app. Qed.

Lemma http_calls_app (t1 t2 : trace) :
  http_calls (t1 ++ t2)%list = http_calls t1 + http_calls t2.
Proof. unfold http_calls. now rewrite filter_app, length_app. Qed.

(** ** The router *)

Lemma route_of_decision_cases (d : string) :
  route_of_decision d = "weather" \/ route_of_decision d = "rag".
Proof. unfold route_of_decision. destruct (contains "weather" d); auto. Qed.

Lemma route_of_decision_weather (d : string) :
  route_of_decision d = "weather" <-> Substring "weather" d.
Proof.
  rewrite <- contains_spec. unfold route_of_decision.
  destruct (contains "weather" d); split; intros H;
    try reflexivity; discriminate.
Qed.

Lemma route_of_decision_rag (d : string) :
  route_of_decision d = "rag" <-> ~ Substring "weather" d.
Proof.
  rewrite <- contains_false_spec. unfold route_of_decision.
  destruct (contains "weather" d); split; intros H;
    try reflexivity; discriminate.
Qed.

Lemma router_node_run (w : World) (st : AgentState) (tr : trace) :
  router_node w st tr =
  (match llm_invoke w (router_prompt (query st)) with
   | Ok raw =>
       Ok {| set_route := Some (route_of_decision (normalize raw));
             set_documents := None; set_weather_data := None;
             set_response := None; set_sender := None |}
   | Raise e => Raise e
   end,
   (tr ++ [LlmInvoke (router_prompt (query st))])%list).
Proof.
  unfold router_node, bind, call, ret.
  destruct (llm_invoke w (router_prompt (query st))); reflexivity.
Qed.

(** Scenario D and the decisions of the unit tests. *)
Example router_examples :
  route_of_decision (normalize EmptyString) = "rag"
  /\ route_of_decision (normalize "rag") = "rag"
  /\ route_of_decision (normalize "weather") = "weather"
  /\ route_of_decision (normalize ("  WEATHER_tool " ++ nl)) = "weather"
  /\ route_of_decision (normalize "w e a t h e r") = "rag"
  /\ route_of_decision (normalize "rag, not weather") = "weather".
Proof. repeat split; reflexivity. Qed.

(** ** The weather fetch *)

Lemma fetch_weather_run (w : World) (c : string) (tr : trace) :
  fetch_weather w c tr =
  (Ok (fetch_weather_result w (length tr) c),
   (tr ++ [HttpGet base_url (weather_params w c)])%list).
Proof. reflexivity. Qed.

Lemma raise_for_status_iff (r : http_response) :
  raise_for_status r = Some (reason_text r)
  <-> (400 <= status_code r < 600)%Z.
Proof.
  unfold raise_for_status.
  destruct (400 <=? status_code r)%Z eqn:A;
    destruct (status_code r <? 600)%Z eqn:B; simpl;
    split; intros H; try reflexivity; try discriminate; lia.
Qed.

Lemma raise_for_status_none (r : http_response) :
  raise_for_status r = None
  <-> ~ (400 <= status_code r < 600)%Z.
Proof.
  unfold raise_for_status.
  destruct (400 <=? status_code r)%Z eqn:A;
    destruct (status_code r <? 600)%Z eqn:B; simpl;
    split; intros H; try reflexivity; try discriminate; lia.
Qed.

Lemma error_payload_has_error (msg : string) :
  dict_get "error" (error_payload msg) = Some (JStr msg).
Proof. reflexivity. Qed.

Section FetchWeather.
Variable w : World.
Variable n : nat.
Variable c : string.

Let answer := requests_get w base_url (weather_params w c).

Lemma fetch_not_found (r : http_response) :
  answer = GetReturns r -> status_code r = 404%Z ->
  fetch_weather_result w n c = error_payload ("City '" ++ c ++ "' not found.").
Proof.
  intros Ha Hs. unfold fetch_weather_result, fetch_weather_try.
  fold answer. rewrite Ha. unfold raise_for_status. rewrite Hs. cbn.
  rewrite Hs. reflexivity.
Qed.

Lemma fetch_http_error (r : http_response) :
  answer = GetReturns r ->
  (400 <= status_code r < 600)%Z -> status_code r <> 404%Z ->
  fetch_weather_result w n c =
    error_payload ("HTTP error occurred: " ++ reason_text r).
Proof.
  intros Ha Hs Hn. unfold fetch_weather_result, fetch_weather_try.
  fold answer. rewrite Ha.
  apply raise_for_status_iff in Hs. rewrite Hs. simpl.
  apply Z.eqb_neq in Hn. now rewrite Hn.
Qed.

Lemma fetch_request_failed (msg : string) :
  answer = GetRaises msg ->
  fetch_weather_result w n c
  = error_payload ("An error occurred: " ++ str_of_exception w n msg).
Proof.
  intros Ha. unfold fetch_weather_result, fetch_weather_try.
  fold answer. now rewrite Ha.
Qed.

Lemma fetch_malformed (r : http_response) (msg : string) :
  answer = GetReturns r ->
  ~ (400 <= status_code r < 600)%Z -> json_body r = inl msg ->
  fetch_weather_result w n c = error_payload ("An error occurred: " ++ msg).
Proof.
  intros Ha Hs Hj. unfold fetch_weather_result, fetch_weather_try.
  fold answer. rewrite Ha.
  apply raise_for_status_none in Hs. now rewrite Hs, Hj.
Qed.

Lemma fetch_success (r : http_response) (body : payload) :
  answer = GetReturns r ->
  ~ (400 <= status_code r < 600)%Z -> json_body r = inr body ->
  fetch_weather_result w n c = body.
Proof.
  intros Ha Hs Hj. unfold fetch_weather_result, fetch_weather_try.
  fold answer. rewrite Ha.
  apply raise_for_status_none in Hs. now rewrite Hs, Hj.
Qed.
End FetchWeather.




(** C9, as stated, fails on the network-failure path: the error message
    embeds [str] of the exception object of that call, and that text is
    built anew at each call.  Against one unreachable service, two
    successive fetches for the same city return two different payloads. *)
Lemma fetch_weather_twice_differs_when_unreachable :
  fst (fetch_weather unreachable_world "Pune" [])
  = Ok [("error", JStr "An error occurred: Connection refused (<HTTPConnection object at 0x7f0>)")]
  /\ fst (fetch_weather unreachable_world "Pune"
            (snd (fetch_weather unreachable_world "Pune" [])))
     = Ok [("error", JStr "An error occurred: Connection refused (<HTTPConnection object at 0x7f1>)")]
  /\ ~ (forall (w : World) (c : string) (tr : trace),
          fst (fetch_weather w c (snd (fetch_weather w c tr)))
          = fst (fetch_weather w c tr)).
Proof.
  split; [reflexivity|]. split; [reflexivity|].
  intros H. specialize (H unreachable_world "Pune" []).
  vm_compute in H. discriminate H.
Qed.

(** C9, amended.  Two successive invocations of [fetch_weather] with the
    same city against the same service make the same request twice.  When
    the request returns a response they yield the same payload: the
    not-found error for 404, the HTTP error with the response's text for
    any other 4xx or 5xx, the parsed body, or the decode error of the body.
    When the request raises, each yields an error payload whose message is
    "An error occurred: " followed by the text of that call's own
    exception. *)
Theorem fetch_weather_twice_same_payload_on_response
  (w : World) (c : string) (tr : trace) :
  let first := fetch_weather w c tr in
  let second := fetch_weather w c (snd first) in
  snd second = (tr ++ [HttpGet base_url (weather_params w c);
                       HttpGet base_url (weather_params w c)])%list
  /\ (forall r,
        requests_get w base_url (weather_params w c) = GetReturns r ->
        fst second = fst first
        /\ (status_code r = 404%Z ->
            fst first = Ok [("error", JStr ("City '" ++ c ++ "' not found."))])
        /\ ((400 <= status_code r < 600)%Z -> status_code r <> 404%Z ->
            fst first
            = Ok [("error", JStr ("HTTP error occurred: " ++ reason_text r))])
        /\ (forall body,
              ~ (400 <= status_code r < 600)%Z -> json_body r = inr body ->
              fst first = Ok body)
        /\ (forall e,
              ~ (400 <= status_code r < 600)%Z -> json_body r = inl e ->
              fst first = Ok [("error", JStr ("An error occurred: " ++ e))]))
  /\ (forall e,
        requests_get w base_url (weather_params w c) = GetRaises e ->
        fst first
        = Ok [("error",
               JStr ("An error occurred: " ++ str_of_exception w (length tr) e))]
        /\ fst second
           = Ok [("error",
                  JStr ("An error occurred: "
                        ++ str_of_exception w (S (length tr)) e))]).
Proof.
  cbv zeta. rewrite !fetch_weather_run. cbn [fst snd].
  split; [now rewrite <- app_assoc|]. split.
  - intros r Hr.
    assert (Hsame : forall n m,
               fetch_weather_result w n c = fetch_weather_result w m c).
    { intros n m. unfold fetch_weather_result, fetch_weather_try.
      now rewrite Hr. }
    split; [f_equal; apply Hsame|].
    split; [|split; [|split]].
    + intros Hs. f_equal. now apply (fetch_not_found w _ c r).
    + intros Hs Hn. f_equal. now apply (fetch_http_error w _ c r).
    + intros body Hs Hj. f_equal. now apply (fetch_success w _ c r).
    + intros e Hs Hj. f_equal. now apply (fetch_malformed w _ c r e).
  - intros e He. split; f_equal.
    + now apply (fetch_request_failed w _ c e).
    + rewrite length_app, Nat.add_1_r. now apply (fetch_request_failed w _ c e).
Qed.

Lemma fetch_weather_twice_same_payload_on_response_witness :
  requests_get chatty_world base_url (weather_params chatty_world "Bengaluru")
  = GetReturns ok_response
  /\ fst (fetch_weather chatty_world "Bengaluru"
            (snd (fetch_weather chatty_world "Bengaluru" [])))
     = fst (fetch_weather chatty_world "Bengaluru" [])
  /\ fst (fetch_weather chatty_world "Bengaluru" []) = Ok haze_body.
Proof.
  split; [reflexivity|].
  destruct (fetch_weather_twice_same_payload_on_response
              chatty_world "Bengaluru" []) as (_ & Hresp & _).
  destruct (Hresp ok_response eq_refl) as (Hsame & _ & _ & Hbody & _).
  split; [exact Hsame|].
  apply (Hbody haze_body); [simpl; lia | reflexivity].
Defined.

(** ** The weather node *)

Lemma weather_node_run (w : World) (st : AgentState) (tr : trace) :
  weather_node w st tr =
  match llm_structured w (query st) with
  | Raise e => (Raise e, (tr ++ [LlmStructured (query st)])%list)
  | Ok None =>
      (Raise (AttributeError none_has_no_city),
       (tr ++ [LlmStructured (query st)])%list)
  | Ok (Some wi) =>
      match city wi with
      | EmptyString =>
          (Ok (weather_update (error_payload no_city_message)),
           (tr ++ [LlmStructured (query st)])%list)
      | String _ _ =>
          (Ok (weather_update
                 (fetch_weather_result w (S (length tr)) (city wi))),
           (tr ++ [LlmStructured (query st);
                   HttpGet base_url (weather_params w (city wi))])%list)
      end
  end.
Proof.
  unfold weather_node, bind, call, ret.
  destruct (llm_structured w (query st)) as [[wi|]|e]; try reflexivity.
  destruct (city wi); [reflexivity|].
  rewrite fetch_weather_run, length_app, Nat.add_1_r.
  now rewrite <- app_assoc.
Qed.

(** When the structured reply carries no tool call the runnable returns
    [None], and the node raises at [result.city]: the guard for a missing
    city tests the field, not the object. *)
Lemma weather_node_raises_on_none_result :
  weather_node no_tool_call_world (initial_state weather_query []) []
  = (Raise (AttributeError "'NoneType' object has no attribute 'city'"),
     [LlmStructured weather_query]).
Proof. reflexivity. Qed.




(** ** The responder *)

Lemma answered_by_one_call (w : World) (prompt : string) (tr : trace) :
  model_calls (snd (answered_by w prompt tr)) = S (model_calls tr).
Proof.
  unfold answered_by, model_calls. simpl.
  rewrite filter_app, length_app. simpl. lia.
Qed.

Lemma responder_documents (w : World) (st : AgentState) (tr : trace)
  (d : string) (ds : list string) :
  documents st = Some (d :: ds) ->
  response_generator_node w st tr =
    answered_by w (rag_prompt (join (nl ++ nl) (d :: ds)) (query st)) tr.
Proof.
  intros H. unfold response_generator_node, answered_by, bind, call, ret.
  rewrite H.
  destruct (llm_invoke w _); reflexivity.
Qed.

Lemma responder_weather (w : World) (st : AgentState) (tr : trace)
  (kv : string * json) (rest : payload) :
  truthy_opt (documents st) = false ->
  weather_data st = Some (kv :: rest) ->
  response_generator_node w st tr =
    answered_by w (weather_prompt (query st) (str_of_dict w (kv :: rest))) tr.
Proof.
  intros Hd Hw. unfold response_generator_node, answered_by, bind, call, ret.
  rewrite Hw.
  destruct (documents st) as [[|d ds]|]; try discriminate;
    destruct (llm_invoke w _); reflexivity.
Qed.

Lemma responder_fallback (w : World) (st : AgentState) (tr : trace) :
  truthy_opt (documents st) = false ->
  truthy_opt (weather_data st) = false ->
  response_generator_node w st tr = (Ok (agent_update fallback_response), tr).
Proof.
  intros Hd Hw. unfold response_generator_node, ret.
  destruct (documents st) as [[|d ds]|]; try discriminate;
    destruct (weather_data st) as [[|kv rest]|]; try discriminate; reflexivity.
Qed.

Lemma model_calls_unchanged_or_one (w : World) (st : AgentState) (tr : trace) :
  model_calls (snd (response_generator_node w st tr)) =
  model_calls tr
  + (if truthy_opt (documents st) || truthy_opt (weather_data st) then 1 else 0).
Proof.
  destruct (documents st) as [[|d ds]|] eqn:Hd.
  - destruct (weather_data st) as [[|kv rest]|] eqn:Hw.
    + rewrite responder_fallback by (rewrite ?Hd, ?Hw; reflexivity). simpl. lia.
    + rewrite (responder_weather w st tr kv rest) by (rewrite ?Hd; easy).
      rewrite answered_by_one_call. simpl. lia.
    + rewrite responder_fallback by (rewrite ?Hd, ?Hw; reflexivity). simpl. lia.
  - rewrite (responder_documents w st tr d ds Hd), answered_by_one_call.
    simpl. lia.
  - destruct (weather_data st) as [[|kv rest]|] eqn:Hw.
    + rewrite responder_fallback by (rewrite ?Hd, ?Hw; reflexivity). simpl. lia.
    + rewrite (responder_weather w st tr kv rest) by (rewrite ?Hd; easy).
      rewrite answered_by_one_call. simpl. lia.
    + rewrite responder_fallback by (rewrite ?Hd, ?Hw; reflexivity). simpl. lia.
Qed.

(** C2, as stated, fails on a weather result that is present but empty:
    after a 200 response whose body is the empty object, [weather_data] is
    the dict [{}], the responder tests its truth value, and the fixed
    fallback string is emitted with no model call. *)
Lemma responder_falls_back_on_empty_weather_result :
  weather_data empty_weather_state = Some []
  /\ documents empty_weather_state = None
  /\ fst (weather_node (mock_world (Ok "It is hazy.") (Ok {| city := "Bengaluru" |}) []
                                   (GetReturns empty_body_response))
                       (initial_state weather_query []) [])
     = Ok (weather_update [])
  /\ response_generator_node chatty_world empty_weather_state []
     = (Ok (agent_update "I'm sorry, I couldn't process that request."), [])
  /\ ~ (forall (w : World) (st : AgentState) (tr : trace),
          truthy_opt (documents st) = false ->
          weather_data st <> None ->
          model_calls (snd (response_generator_node w st tr))
          = S (model_calls tr)).
Proof.
  split; [reflexivity|]. split; [reflexivity|].
  split; [reflexivity|]. split; [reflexivity|].
  intros H.
  specialize (H chatty_world empty_weather_state [] eq_refl).
  assert (Hp : weather_data empty_weather_state <> None) by discriminate.
  specialize (H Hp). discriminate H.
Qed.

(** C2, amended.  The responder takes exactly one of three branches, by
    this priority.  (1) [documents] non-empty: one model call with the
    context-and-question prompt built from the documents joined by blank
    lines; the outcome does not depend on [weather_data].  (2) otherwise,
    [weather_data] present and non-empty (every error payload is): one
    model call with the weather prompt.  (3) otherwise ([weather_data]
    absent or an empty dict): the fixed fallback string, with no model
    call.  When the model answers, its content is the response and the
    sender is "Agent". *)
Theorem responder_branch_priority
  (w : World) (st : AgentState) (tr : trace) :
  (forall d ds,
     documents st = Some (d :: ds) ->
     response_generator_node w st tr =
       answered_by w (rag_prompt (join (nl ++ nl) (d :: ds)) (query st)) tr
     /\ forall st',
          query st' = query st -> documents st' = documents st ->
          response_generator_node w st' tr = response_generator_node w st tr)
  /\ (forall kv rest,
        truthy_opt (documents st) = false ->
        weather_data st = Some (kv :: rest) ->
        response_generator_node w st tr =
          answered_by w (weather_prompt (query st) (str_of_dict w (kv :: rest))) tr)
  /\ (forall msg,
        truthy_opt (documents st) = false ->
        weather_data st = Some (error_payload msg) ->
        model_calls (snd (response_generator_node w st tr)) = S (model_calls tr))
  /\ (truthy_opt (documents st) = false ->
      truthy_opt (weather_data st) = false ->
      response_generator_node w st tr =
        (Ok (agent_update "I'm sorry, I couldn't process that request."), tr))
  /\ model_calls (snd (response_generator_node w st tr)) =
     model_calls tr
     + (if truthy_opt (documents st) || truthy_opt (weather_data st)
        then 1 else 0).
Proof.
  split; [|split; [|split; [|split]]].
  - intros d ds Hd. split; [now apply responder_documents|].
    intros st' Hq Hd'.
    rewrite (responder_documents w st tr d ds Hd).
    rewrite (responder_documents w st' tr d ds) by congruence.
    now rewrite Hq.
  - intros kv rest Hd Hw. now apply responder_weather.
  - intros msg Hd Hw.
    rewrite (responder_weather w st tr ("error", JStr msg) [] Hd Hw).
    apply answered_by_one_call.
  - apply responder_fallback.
  - apply model_calls_unchanged_or_one.
Qed.

(** Documents take priority over a weather result that is also present. *)
Lemma responder_branch_priority_witness :
  fst (response_generator_node chatty_world
         {| query := rag_query; messages := []; response := None;
            sender := None; documents := Some ["DTC is a code."];
            weather_data := Some haze_body; route := Some "rag" |} [])
  = Ok (agent_update "It is hazy, 25 degrees.")
  /\ snd (response_generator_node chatty_world
         {| query := rag_query; messages := []; response := None;
            sender := None; documents := Some ["DTC is a code."];
            weather_data := Some haze_body; route := Some "rag" |} [])
     = [LlmInvoke (rag_prompt "DTC is a code." rag_query)].
Proof.
  destruct (responder_branch_priority chatty_world
         {| query := rag_query; messages := []; response := None;
            sender := None; documents := Some ["DTC is a code."];
            weather_data := Some haze_body; route := Some "rag" |} [])
    as (Hdocs & _).
  destruct (Hdocs "DTC is a code." [] eq_refl) as (E & _).
  rewrite E. split; reflexivity.
Defined.

(** ** The retrieval node *)

Lemma rag_node_run (w : World) (st : AgentState) (tr : trace) :
  rag_node w st tr =
  (match similarity_search w (query st) 5 with
   | Ok docs =>
       Ok {| set_route := None;
             set_documents := Some (map page_content docs);
             set_weather_data := None; set_response := None;
             set_sender := Some "RAG Tool" |}
   | Raise e => Raise e
   end,
   (tr ++ [RetrieverInvoke (query st) 5])%list).
Proof.
  unfold rag_node, retriever_invoke, retriever_k, bind, call, ret.
  destruct (similarity_search w (query st) 5); reflexivity.
Qed.

(** C7.  The retrieval node makes one request to the vector store, for the
    query with K = 5, and stores the text of the chunks the store returns:
    as many entries as there are chunks, the i-th entry being the text of
    the i-th chunk, so nothing is re-ordered, dropped or merged. *)
Theorem rag_node_keeps_store_order
  (w : World) (st : AgentState) (tr : trace) (docs : list Document) :
  similarity_search w (query st) 5 = Ok docs ->
  exists texts,
    rag_node w st tr =
      (Ok {| set_route := None; set_documents := Some texts;
             set_weather_data := None; set_response := None;
             set_sender := Some "RAG Tool" |},
       (tr ++ [RetrieverInvoke (query st) 5])%list)
    /\ length texts = length docs
    /\ forall i, nth_error texts i = option_map page_content (nth_error docs i).
Proof.
  intros H. exists (map page_content docs).
  rewrite rag_node_run, H. split; [reflexivity|]. split.
  - apply length_map.
  - intros i. apply nth_error_map.
Qed.

(** The store's answer holds the same text twice; both copies are kept, in
    place. *)
Lemma rag_node_keeps_store_order_witness :
  similarity_search chatty_world (query (initial_state rag_query [])) 5
    = Ok [chunk "DTC is a code." 231; chunk "DTC is a code." 232;
          chunk "Service 0x19 reads it." 240]
  /\ fst (rag_node chatty_world (initial_state rag_query []) [])
     = Ok {| set_route := None;
             set_documents := Some ["DTC is a code."; "DTC is a code.";
                                    "Service 0x19 reads it."];
             set_weather_data := None; set_response := None;
             set_sender := Some "RAG Tool" |}.
Proof.
  split; [reflexivity|].
  destruct (rag_node_keeps_store_order chatty_world (initial_state rag_query []) []
              [chunk "DTC is a code." 231; chunk "DTC is a code." 232;
               chunk "Service 0x19 reads it." 240] eq_refl)
    as (texts & E & Hlen & Hnth).
  rewrite E. simpl.
  destruct texts as [|t0 [|t1 [|t2 [|t3 texts]]]]; try discriminate Hlen.
  pose proof (Hnth 0) as H0. pose proof (Hnth 1) as H1. pose proof (Hnth 2) as H2.
  simpl in H0, H1, H2. inversion H0. inversion H1. inversion H2. reflexivity.
Defined.

(** C8, as stated, fails: [documents] holds the text of each chunk and
    nothing else.  Two stores whose chunks have the same text and different
    metadata (here the page number) leave the same update. *)
Lemma rag_node_drops_metadata :
  similarity_search
    (mock_world (Ok "rag") (Ok {| city := EmptyString |})
                [chunk "DTC is a code." 231] (GetRaises "unused")) rag_query 5
    = Ok [chunk "DTC is a code." 231]
  /\ similarity_search
    (mock_world (Ok "rag") (Ok {| city := EmptyString |})
                [chunk "DTC is a code." 7] (GetRaises "unused")) rag_query 5
    = Ok [chunk "DTC is a code." 7]
  /\ metadata (chunk "DTC is a code." 231) <> metadata (chunk "DTC is a code." 7)
  /\ rag_node (mock_world (Ok "rag") (Ok {| city := EmptyString |})
                          [chunk "DTC is a code." 231] (GetRaises "unused"))
              (initial_state rag_query []) []
     = rag_node (mock_world (Ok "rag") (Ok {| city := EmptyString |})
                            [chunk "DTC is a code." 7] (GetRaises "unused"))
                (initial_state rag_query []) []
  /\ ~ (exists recover : list string -> list Metadata,
          forall (w : World) (st : AgentState) (tr : trace) docs u tr',
            similarity_search w (query st) 5 = Ok docs ->
            rag_node w st tr = (Ok u, tr') ->
            option_map recover (set_documents u) = Some (map metadata docs)).
Proof.
  split; [reflexivity|]. split; [reflexivity|].
  split; [discriminate|]. split; [reflexivity|].
  intros [recover H].
  pose proof (H (mock_world (Ok "rag") (Ok {| city := EmptyString |})
                            [chunk "DTC is a code." 231] (GetRaises "unused"))
                (initial_state rag_query []) [] _ _ _ eq_refl eq_refl) as H1.
  pose proof (H (mock_world (Ok "rag") (Ok {| city := EmptyString |})
                            [chunk "DTC is a code." 7] (GetRaises "unused"))
                (initial_state rag_query []) [] _ _ _ eq_refl eq_refl) as H2.
  simpl in H1, H2. rewrite H1 in H2. discriminate H2.
Qed.

(** C8, amended.  Each element of [documents] is the text content of the
    chunk the store returned at that position, and only that: the update
    is determined by the texts alone, so the metadata of the chunks
    (service name, service identifier, section, page) is not carried in
    the state. *)
Theorem rag_node_stores_text_only
  (w1 w2 : World) (st : AgentState) (tr : trace) (docs1 docs2 : list Document) :
  similarity_search w1 (query st) 5 = Ok docs1 ->
  similarity_search w2 (query st) 5 = Ok docs2 ->
  (forall u tr',
     rag_node w1 st tr = (Ok u, tr') ->
     exists texts,
       set_documents u = Some texts
       /\ Forall2 (fun t d => t = page_content d) texts docs1)
  /\ (map page_content docs1 = map page_content docs2 ->
      rag_node w1 st tr = rag_node w2 st tr).
Proof.
  intros H1 H2. split.
  - intros u tr' E. rewrite rag_node_run, H1 in E. inversion E; subst. simpl.
    exists (map page_content docs1). split; [reflexivity|].
    clear. induction docs1; simpl; constructor; auto.
  - intros Hm. rewrite !rag_node_run, H1, H2, Hm. reflexivity.
Qed.

Lemma rag_node_stores_text_only_witness :
  rag_node (mock_world (Ok "rag") (Ok {| city := EmptyString |})
                       [chunk "DTC is a code." 231] (GetRaises "unused"))
           (initial_state rag_query []) []
  = rag_node (mock_world (Ok "rag") (Ok {| city := EmptyString |})
                         [chunk "DTC is a code." 7] (GetRaises "unused"))
             (initial_state rag_query []) [].
Proof.
  apply (rag_node_stores_text_only
           (mock_world (Ok "rag") (Ok {| city := EmptyString |})
                       [chunk "DTC is a code." 231] (GetRaises "unused"))
           (mock_world (Ok "rag") (Ok {| city := EmptyString |})
                       [chunk "DTC is a code." 7] (GetRaises "unused"))
           (initial_state rag_query []) []
           [chunk "DTC is a code." 231] [chunk "DTC is a code." 7]
           eq_refl eq_refl).
  reflexivity.
Defined.

(** ** The graph *)

Lemma successor_spec (r : option string) (a b : node) :
  successor r a = Some b <->
  (a = router /\ r = Some "rag" /\ b = rag_tool)
  \/ (a = router /\ r = Some "weather" /\ b = weather_tool)
  \/ (a = rag_tool /\ b = responder)
  \/ (a = weather_tool /\ b = responder)
  \/ (a = responder /\ b = END).
Proof.
  split.
  - destruct a; cbn.
    + destruct r as [label|]; [|discriminate]. cbn.
      destruct (String.eqb_spec label "rag") as [->|_].
      * intros H; inversion H; auto.
      * destruct (String.eqb_spec label "weather") as [->|_]; [|discriminate].
        intros H; inversion H; auto.
    + intros H; inversion H; auto.
    + intros H; inversion H; auto 6.
    + intros H; inversion H; auto 6.
    + discriminate.
  - intros [(-> & -> & ->)|[(-> & -> & ->)|[(-> & ->)|[(-> & ->)|(-> & ->)]]]];
      reflexivity.
Qed.

Lemma successor_depth (r : option string) (a b : node) :
  successor r a = Some b -> depth a = S (depth b).
Proof.
  rewrite successor_spec.
  intros [(-> & _ & ->)|[(-> & _ & ->)|[(-> & ->)|[(-> & ->)|(-> & ->)]]]];
    reflexivity.
Qed.

Lemma node_eqb_eq (a b : node) : node_eqb a b = true <-> a = b.
Proof. destruct a, b; simpl; split; intros H; try reflexivity; discriminate. Qed.

Lemma is_path_descends (r : option string) (p : list node) (a : node) :
  is_path r (a :: p) = true ->
  length p <= depth a
  /\ Forall (fun x => depth x < depth a) p
  /\ NoDup (a :: p).
Proof.
  revert a. induction p as [|b p IH]; intros a H.
  - simpl. repeat split; [lia | constructor | repeat constructor; auto].
  - cbn [is_path] in H.
    destruct (successor r a) as [b'|] eqn:Es; [|discriminate].
    apply andb_true_iff in H as [Hb Hp].
    apply node_eqb_eq in Hb. subst b'.
    apply successor_depth in Es.
    destruct (IH b Hp) as (Hlen & Hall & Hnd).
    split; [simpl; lia|]. split.
    + constructor; [lia|].
      eapply Forall_impl; [|exact Hall]. simpl. intros x Hx. lia.
    + constructor; [|exact Hnd].
      intros [Hin|Hin].
      * subst b. lia.
      * rewrite Forall_forall in Hall. specialize (Hall a Hin). lia.
Qed.

Lemma run_END (fuel : nat) (w : World) (st : AgentState)
  (visited : list node) (tr : trace) :
  run fuel w END st visited tr = (Ok (st, visited), tr).
Proof. destruct fuel; reflexivity. Qed.

Lemma run_step (fuel : nat) (w : World) (n : node) (st : AgentState)
  (visited : list node) (tr : trace) :
  n <> END ->
  run (S fuel) w n st visited tr =
  match node_fn w n st tr with
  | (Raise e, t) => (Raise e, t)
  | (Ok u, t) =>
      match successor (route (apply_update st u)) n with
      | Some n' => run fuel w n' (apply_update st u) (visited ++ [n])%list t
      | None =>
          (Raise (KeyError (match route (apply_update st u) with
                            | Some r => r
                            | None => "route"
                            end)), t)
      end
  end.
Proof.
  intros Hn. destruct n; try (now elim Hn); cbn [run]; unfold bind;
    destruct (node_fn w _ st tr) as [[u|e] t]; try reflexivity;
    destruct (successor (route (apply_update st u)) _); reflexivity.
Qed.

Lemma rag_node_sets (w : World) (st : AgentState) (tr : trace)
  (u : Update) (tr' : trace) :
  rag_node w st tr = (Ok u, tr') ->
  exists texts,
    u = {| set_route := None; set_documents := Some texts;
           set_weather_data := None; set_response := None;
           set_sender := Some "RAG Tool" |}.
Proof.
  rewrite rag_node_run.
  destruct (similarity_search w (query st) 5) as [docs|e]; [|discriminate].
  intros H; inversion H. eexists; reflexivity.
Qed.

Lemma weather_node_sets (w : World) (st : AgentState) (tr : trace)
  (u : Update) (tr' : trace) :
  weather_node w st tr = (Ok u, tr') -> exists p, u = weather_update p.
Proof.
  rewrite weather_node_run.
  destruct (llm_structured w (query st)) as [[wi|]|e]; try discriminate.
  destruct (city wi); intros H; inversion H; eexists; reflexivity.
Qed.

Lemma responder_sets (w : World) (st : AgentState) (tr : trace)
  (u : Update) (tr' : trace) :
  response_generator_node w st tr = (Ok u, tr') ->
  exists text,
    u = agent_update text
    /\ (text = fallback_response \/ exists prompt, llm_invoke w prompt = Ok text).
Proof.
  unfold response_generator_node, bind, call, ret.
  destruct (documents st) as [[|d ds]|];
    try (destruct (weather_data st) as [[|kv rest]|]);
    try (intros H; inversion H; exists fallback_response; split; auto; fail);
    match goal with
    | |- context [llm_invoke w ?p] =>
        destruct (llm_invoke w p) as [content|e] eqn:E; [|discriminate];
        intros H; inversion H; exists content; split; [reflexivity|];
        right; exists p; exact E
    end.
Qed.

(** What a completed run of the graph is made of. *)
Lemma app_invoke_completed (w : World) (inputs : AgentState) (tr : trace)
  (st : AgentState) (visited : list node) (tr' : trace) :
  app_invoke w inputs tr = (Ok (st, visited), tr') ->
  exists u1 t1 tool u2 t2 u3,
    router_node w inputs tr = (Ok u1, t1)
    /\ ((set_route u1 = Some "rag" /\ tool = rag_tool)
        \/ (set_route u1 = Some "weather" /\ tool = weather_tool))
    /\ set_documents u1 = None /\ set_weather_data u1 = None
    /\ node_fn w tool (apply_update inputs u1) t1 = (Ok u2, t2)
    /\ response_generator_node w (apply_update (apply_update inputs u1) u2) t2
       = (Ok u3, tr')
    /\ st = apply_update (apply_update (apply_update inputs u1) u2) u3
    /\ visited = [router; tool; responder].
Proof.
  unfold app_invoke, entry_point, recursion_limit.
  rewrite run_step by discriminate. cbn [node_fn].
  rewrite router_node_run.
  destruct (llm_invoke w (router_prompt (query inputs))) as [raw|e];
    [|discriminate].
  set (u1 := {| set_route := Some (route_of_decision (normalize raw));
                set_documents := None; set_weather_data := None;
                set_response := None; set_sender := None |}).
  set (s1 := apply_update inputs u1).
  assert (Hr : route s1 = Some (route_of_decision (normalize raw)))
    by reflexivity.
  rewrite Hr.
  assert (Htool : exists tool,
             successor (Some (route_of_decision (normalize raw))) router = Some tool
             /\ ((set_route u1 = Some "rag" /\ tool = rag_tool)
                 \/ (set_route u1 = Some "weather" /\ tool = weather_tool))).
  { subst u1. cbn [set_route].
    destruct (route_of_decision_cases (normalize raw)) as [E|E]; rewrite E.
    - exists weather_tool. split; [reflexivity | right; auto].
    - exists rag_tool. split; [reflexivity | left; auto]. }
  destruct Htool as (tool & Hs & Htool). rewrite Hs.
  assert (Hne : tool <> END) by (destruct Htool as [[_ ->]|[_ ->]]; discriminate).
  rewrite run_step by exact Hne.
  destruct (node_fn w tool s1 _) as [[u2|e] t2] eqn:E2; [|discriminate].
  assert (Hr2 : set_route u2 = None).
  { destruct Htool as [[_ ->]|[_ ->]]; cbn [node_fn] in E2.
    - apply rag_node_sets in E2 as [texts ->]. reflexivity.
    - apply weather_node_sets in E2 as [p ->]. reflexivity. }
  assert (Hs2 : successor (route (apply_update s1 u2)) tool = Some responder)
    by (destruct Htool as [[_ ->]|[_ ->]]; reflexivity).
  rewrite Hs2.
  rewrite run_step by discriminate. cbn [node_fn].
  destruct (response_generator_node w (apply_update s1 u2) t2)
    as [[u3|e] t3] eqn:E3; [|discriminate].
  change (successor (route (apply_update (apply_update s1 u2) u3)) responder)
    with (Some END).
  cbv beta iota. rewrite run_END. intros H. inversion H; subst st visited tr'.
  exists u1, (tr ++ [LlmInvoke (router_prompt (query inputs))])%list,
    tool, u2, t2, u3.
  repeat (split; [first [reflexivity | assumption]|]). reflexivity.
Qed.

Lemma responder_returns (w : World) (st : AgentState) (tr : trace) :
  (forall prompt, exists content, llm_invoke w prompt = Ok content) ->
  exists u tr', response_generator_node w st tr = (Ok u, tr').
Proof.
  intros Hllm. unfold response_generator_node, bind, call, ret.
  destruct (documents st) as [[|d ds]|];
    try (destruct (weather_data st) as [[|kv rest]|]);
    try (do 2 eexists; reflexivity);
    match goal with
    | |- context [llm_invoke w ?p] =>
        destruct (Hllm p) as [content ->]; do 2 eexists; reflexivity
    end.
Qed.

(** With collaborators that answer, the run ends well inside the step
    limit: three nodes are executed and a final state is returned. *)
Lemma app_invoke_returns (w : World) (inputs : AgentState) (tr : trace) :
  (forall prompt, exists content, llm_invoke w prompt = Ok content) ->
  (forall q, exists wi, llm_structured w q = Ok (Some wi)) ->
  (forall q k, exists docs, similarity_search w q k = Ok docs) ->
  exists st visited tr',
    app_invoke w inputs tr = (Ok (st, visited), tr') /\ length visited = 3.
Proof.
  intros Hllm Hx Hstore.
  unfold app_invoke, entry_point, recursion_limit.
  rewrite run_step by discriminate. cbn [node_fn].
  rewrite router_node_run.
  destruct (Hllm (router_prompt (query inputs))) as [raw ->].
  set (u1 := {| set_route := Some (route_of_decision (normalize raw));
                set_documents := None; set_weather_data := None;
                set_response := None; set_sender := None |}).
  set (s1 := apply_update inputs u1).
  assert (Hr : route s1 = Some (route_of_decision (normalize raw)))
    by reflexivity.
  rewrite Hr.
  assert (Htool : exists tool u2 t2,
             successor (Some (route_of_decision (normalize raw))) router = Some tool
             /\ tool <> END
             /\ node_fn w tool s1
                  (tr ++ [LlmInvoke (router_prompt (query inputs))])%list
                = (Ok u2, t2)
             /\ successor (route (apply_update s1 u2)) tool = Some responder).
  { destruct (route_of_decision_cases (normalize raw)) as [E|E]; rewrite E.
    - exists weather_tool. cbn [node_fn]. rewrite weather_node_run.
      destruct (Hx (query s1)) as [wi ->].
      destruct (city wi); do 2 eexists;
        (split; [reflexivity|]; split; [discriminate|]; split; reflexivity).
    - exists rag_tool. cbn [node_fn]. rewrite rag_node_run.
      destruct (Hstore (query s1) 5) as [docs ->].
      do 2 eexists.
      split; [reflexivity|]; split; [discriminate|]; split; reflexivity. }
  destruct Htool as (tool & u2 & t2 & Hs & Hne & E2 & Hs2). rewrite Hs.
  rewrite run_step by exact Hne. rewrite E2, Hs2.
  rewrite run_step by discriminate. cbn [node_fn].
  destruct (responder_returns w (apply_update s1 u2) t2 Hllm) as (u3 & t3 & ->).
  change (successor (route (apply_update (apply_update s1 u2) u3)) responder)
    with (Some END).
  cbv beta iota. rewrite run_END.
  do 3 eexists. split; reflexivity.
Qed.

(** C5.  The edges of the compiled graph are exactly: router to the
    retrieval tool when the route is "rag", router to the weather tool when
    the route is "weather", each tool to the responder, the responder to
    END.  Hence a path from the router has at most 3 nodes after it and
    repeats no node; a completed run executes router, one tool and the
    responder in that order, the tool being the one named by the route; and
    when the collaborators answer, the run completes within the step
    limit. *)
Theorem graph_single_acyclic_pass :
  (forall r a b,
     successor r a = Some b <->
     (a = router /\ r = Some "rag" /\ b = rag_tool)
     \/ (a = router /\ r = Some "weather" /\ b = weather_tool)
     \/ (a = rag_tool /\ b = responder)
     \/ (a = weather_tool /\ b = responder)
     \/ (a = responder /\ b = END))
  /\ (forall r p,
        is_path r (entry_point :: p) = true ->
        length p <= 3 /\ NoDup (entry_point :: p))
  /\ (forall w inputs tr st visited tr',
        app_invoke w inputs tr = (Ok (st, visited), tr') ->
        (route st = Some "rag" /\ visited = [router; rag_tool; responder])
        \/ (route st = Some "weather"
            /\ visited = [router; weather_tool; responder]))
  /\ (forall w inputs tr,
        (forall prompt, exists content, llm_invoke w prompt = Ok content) ->
        (forall q, exists wi, llm_structured w q = Ok (Some wi)) ->
        (forall q k, exists docs, similarity_search w q k = Ok docs) ->
        exists st visited tr',
          app_invoke w inputs tr = (Ok (st, visited), tr')).
Proof.
  split; [exact successor_spec|]. split; [|split].
  - intros r p H. destruct (is_path_descends r p entry_point H) as (Hl & _ & Hn).
    split; [exact Hl | exact Hn].
  - intros w inputs tr st visited tr' H.
    destruct (app_invoke_completed w inputs tr st visited tr' H)
      as (u1 & t1 & tool & u2 & t2 & u3 & _ & Htool & _ & _ & E2 & E3 & -> & ->).
    apply responder_sets in E3 as (text & -> & _).
    destruct Htool as [[Hr ->]|[Hr ->]]; cbn [node_fn] in E2.
    + apply rag_node_sets in E2 as [texts ->]. left.
      split; [|reflexivity]. cbn. rewrite Hr. reflexivity.
    + apply weather_node_sets in E2 as [p ->]. right.
      split; [|reflexivity]. cbn. rewrite Hr. reflexivity.
  - intros w inputs tr Hllm Hx Hstore.
    destruct (app_invoke_returns w inputs tr Hllm Hx Hstore)
      as (st & visited & tr' & H & _).
    now exists st, visited, tr'.
Qed.

Lemma graph_single_acyclic_pass_witness :
  is_path (Some "weather") [router; weather_tool; responder; END] = true
  /\ length [weather_tool; responder; END] <= 3
  /\ NoDup [router; weather_tool; responder; END].
Proof.
  split; [reflexivity|].
  destruct graph_single_acyclic_pass as (_ & Hpath & _).
  exact (Hpath (Some "weather") [weather_tool; responder; END] eq_refl).
Defined.

(** ** A completed turn *)

(** Scenario C: the router answers "weather", the city is Atlantis, the
    service answers 404; the turn completes through the weather tool with
    the not-found payload in the state. *)
Example scenario_unknown_city :
  exists st tr',
    app_invoke (mock_world (Ok "weather") (Ok {| city := "Atlantis" |}) []
                           (GetReturns not_found_response))
               (initial_state "what is the weather in Atlantis?" []) []
      = (Ok (st, [router; weather_tool; responder]), tr')
    /\ weather_data st = Some [("error", JStr "City 'Atlantis' not found.")]
    /\ documents st = None
    /\ model_calls tr' = 3 /\ http_calls tr' = 1.
Proof. do 2 eexists. split; [vm_compute; reflexivity|]. repeat split. Qed.

(** Scenario D with an empty store: the router's decision is the empty
    string, the turn takes the retrieval path, nothing is retrieved, and
    the responder emits the fallback string without a model call. *)
Example scenario_empty_decision :
  exists st tr',
    app_invoke (mock_world (Ok EmptyString) (Ok {| city := "Pune" |}) []
                           (GetRaises "unused"))
               (initial_state rag_query []) []
      = (Ok (st, [router; rag_tool; responder]), tr')
    /\ documents st = Some []
    /\ response st = Some fallback_response
    /\ model_calls tr' = 1.
Proof. do 2 eexists. split; [vm_compute; reflexivity|]. repeat split. Qed.

(** C6, as stated, fails three ways.  The response of the two
    model-backed branches is the model's content as returned, so a model
    that returns empty content completes the turn with an empty response.
    On the retrieval path with a store that returns no chunk, [documents]
    is written as the empty list, so neither field holds anything.  And a
    turn whose inputs already carry a weather result ends, on the retrieval
    path, with both fields set. *)
Lemma turn_completes_with_empty_response :
  (exists st visited tr',
     app_invoke silent_world (initial_state rag_query []) []
       = (Ok (st, visited), tr')
     /\ documents st = Some ["DTC is a code."]
     /\ response st = Some EmptyString)
  /\ (exists st visited tr',
        app_invoke (mock_world (Ok "rag") (Ok {| city := "Pune" |}) []
                               (GetRaises "unused"))
                   (initial_state rag_query []) []
          = (Ok (st, visited), tr')
        /\ documents st = Some [] /\ weather_data st = None)
  /\ (exists st visited tr',
        app_invoke chatty_world
                   {| query := rag_query; messages := []; response := None;
                      sender := None; documents := None;
                      weather_data := Some haze_body; route := None |} []
          = (Ok (st, visited), tr')
        /\ documents st = Some ["DTC is a code."; "DTC is a code.";
                                "Service 0x19 reads it."]
        /\ weather_data st = Some haze_body)
  /\ ~ (forall w q msgs tr st visited tr',
          app_invoke w (initial_state q msgs) tr = (Ok (st, visited), tr') ->
          exists text, response st = Some text /\ text <> EmptyString).
Proof.
  assert (E : exists st visited tr',
     app_invoke silent_world (initial_state rag_query []) []
       = (Ok (st, visited), tr')
     /\ documents st = Some ["DTC is a code."]
     /\ response st = Some EmptyString).
  { do 3 eexists. split; [vm_compute; reflexivity|]. split; reflexivity. }
  split; [exact E|]. split; [|split].
  - do 3 eexists. split; [vm_compute; reflexivity|]. split; reflexivity.
  - do 3 eexists. split; [vm_compute; reflexivity|]. split; reflexivity.
  - intros H. destruct E as (st & visited & tr' & E & _ & Hr).
    destruct (H _ _ _ _ _ _ _ E) as (text & Ht & Hne).
    rewrite Hr in Ht. inversion Ht. now elim Hne.
Qed.

(** C6, amended.  In the final state of every completed turn that started
    from fresh inputs (query and messages only), exactly one of [documents]
    and [weather_data] has been written, the one of the route taken, and it
    may be empty; the response is set and is decided by that field: for
    non-empty documents it is the content the model returned for the
    context-and-question prompt built from them, for a non-empty weather
    payload the content the model returned for the weather prompt showing
    it, whatever that content is, and for an empty field the fixed fallback
    string, which is not empty. *)
Theorem completed_turn_writes_one_branch
  (w : World) (q : string) (msgs : list string) (tr : trace)
  (st : AgentState) (visited : list node) (tr' : trace) :
  app_invoke w (initial_state q msgs) tr = (Ok (st, visited), tr') ->
  ((route st = Some "rag" /\ documents st <> None /\ weather_data st = None)
   \/ (route st = Some "weather"
       /\ documents st = None /\ weather_data st <> None))
  /\ (exists text,
        response st = Some text
        /\ match documents st, weather_data st with
           | Some (d :: ds), None =>
               llm_invoke w (rag_prompt (join (nl ++ nl) (d :: ds)) q) = Ok text
           | None, Some (kv :: rest) =>
               llm_invoke w (weather_prompt q (str_of_dict w (kv :: rest)))
               = Ok text
           | Some [], None | None, Some [] =>
               text = "I'm sorry, I couldn't process that request."
           | _, _ => False
           end)
  /\ "I'm sorry, I couldn't process that request." <> EmptyString.
Proof.
  intros H.
  destruct (app_invoke_completed _ _ _ _ _ _ H)
    as (u1 & t1 & tool & u2 & t2 & u3 & E1 & Htool & _ & _ & E2 & E3 & -> & _).
  rewrite router_node_run in E1.
  destruct (llm_invoke w (router_prompt (query (initial_state q msgs))))
    as [raw|e]; [|discriminate E1].
  injection E1 as <- <-.
  split; [|split; [|discriminate]].
  - pose proof E3 as E3'. apply responder_sets in E3' as (text & -> & _).
    destruct Htool as [[Hr ->]|[Hr ->]]; cbn [node_fn] in E2; cbn in Hr.
    + apply rag_node_sets in E2 as [texts ->]. left. cbn. rewrite Hr.
      split; [reflexivity|]. split; [discriminate | reflexivity].
    + apply weather_node_sets in E2 as [p ->]. right. cbn. rewrite Hr.
      split; [reflexivity|]. split; [reflexivity | discriminate].
  - destruct Htool as [[_ ->]|[_ ->]]; cbn [node_fn] in E2.
    + apply rag_node_sets in E2 as [texts ->].
      destruct texts as [|d ds].
      * rewrite responder_fallback in E3 by reflexivity.
        injection E3 as <- <-. exists fallback_response. split; reflexivity.
      * rewrite (responder_documents w _ _ d ds) in E3 by reflexivity.
        unfold answered_by in E3. cbn [query apply_update initial_state] in E3.
        destruct (llm_invoke w (rag_prompt (join (nl ++ nl) (d :: ds)) q))
          as [text|e] eqn:El; [|discriminate E3].
        injection E3 as <- <-. exists text. split; [reflexivity | exact El].
    + apply weather_node_sets in E2 as [p ->].
      destruct p as [|kv rest].
      * rewrite responder_fallback in E3 by reflexivity.
        injection E3 as <- <-. exists fallback_response. split; reflexivity.
      * rewrite (responder_weather w _ _ kv rest) in E3 by reflexivity.
        unfold answered_by in E3. cbn [query apply_update initial_state] in E3.
        destruct (llm_invoke w (weather_prompt q (str_of_dict w (kv :: rest))))
          as [text|e] eqn:El; [|discriminate E3].
        injection E3 as <- <-. exists text. split; [reflexivity | exact El].
Qed.

(** A model that echoes its prompt: the response of the turn is the echo
    of the context-and-question prompt, not of the routing prompt. *)
Lemma completed_turn_writes_one_branch_witness :
  exists st visited tr',
    app_invoke echo_world (initial_state rag_query []) []
      = (Ok (st, visited), tr')
    /\ documents st = Some ["DTC is a code."]
    /\ weather_data st = None
    /\ response st
       = Some ("Answer to: " ++ rag_prompt "DTC is a code." rag_query).
Proof.
  assert (E : exists st visited tr',
             app_invoke echo_world (initial_state rag_query []) []
             = (Ok (st, visited), tr')
             /\ documents st = Some ["DTC is a code."]
             /\ weather_data st = None)
    by (do 3 eexists; split; [vm_compute; reflexivity | split; reflexivity]).
  destruct E as (st & visited & tr' & E & Hd & Hw).
  exists st, visited, tr'. split; [exact E|]. split; [exact Hd|].
  split; [exact Hw|].
  destruct (completed_turn_writes_one_branch
              echo_world rag_query [] [] st visited tr' E)
    as (_ & (text & Hr & Hm) & _).
  rewrite Hd, Hw in Hm. vm_compute in Hm. injection Hm as Hm.
  rewrite Hr, <- Hm. reflexivity.
Defined.

(** ** Page ranges of the ingestion parser *)

Section StableSort.

Lemma insert_by_start_perm (x : ServiceInfo) (l : list ServiceInfo) :
  Permutation (insert_by_start x l) (x :: l).
Proof.
  induction l as [|y l IH]; simpl; [reflexivity|].
  destruct (start x <=? start y)%nat; [reflexivity|].
  rewrite IH. apply perm_swap.
Qed.

Lemma sorted_by_start_perm (l : list ServiceInfo) :
  Permutation (sorted_by_start l) l.
Proof.
  induction l as [|x l IH]; simpl; [reflexivity|].
  rewrite insert_by_start_perm. now constructor.
Qed.

Lemma insert_by_start_sorted (x : ServiceInfo) (l : list ServiceInfo) :
  StronglySorted le (map start l) ->
  StronglySorted le (map start (insert_by_start x l)).
Proof.
  induction l as [|y l IH]; simpl; intros Hs.
  - repeat constructor.
  - destruct (start x <=? start y)%nat eqn:E.
    + apply Nat.leb_le in E. simpl. constructor; [exact Hs|].
      inversion Hs as [|? ? Hs' Hall]; subst.
      constructor; [exact E|].
      eapply Forall_impl; [|exact Hall]. simpl. intros; lia.
    + apply Nat.leb_gt in E. simpl.
      inversion Hs as [|? ? Hs' Hall]; subst.
      constructor; [now apply IH|].
      assert (P : Permutation (map start (insert_by_start x l))
                              (start x :: map start l))
        by (change (start x :: map start l) with (map start (x :: l));
            apply Permutation_map, insert_by_start_perm).
      eapply Permutation_Forall; [symmetry; exact P|].
      constructor; [lia | exact Hall].
Qed.

Lemma sorted_by_start_sorted (l : list ServiceInfo) :
  StronglySorted le (map start (sorted_by_start l)).
Proof.
  induction l as [|x l IH]; simpl; [constructor|].
  now apply insert_by_start_sorted.
Qed.

Lemma in_firstn_in {A : Type} (k : nat) (l : list A) (y : A) :
  In y (firstn k l) -> In y l.
Proof.
  revert k. induction l as [|x l IH]; intros k H.
  - rewrite firstn_nil in H. exact H.
  - destruct k as [|k]; simpl in H; [contradiction|].
    destruct H as [->|H]; [now left | right; eauto].
Qed.

Lemma firstn_sorted (k : nat) (l : list nat) :
  StronglySorted le l -> StronglySorted le (firstn k l).
Proof.
  revert k. induction l as [|x l IH]; intros k Hs.
  - rewrite firstn_nil. constructor.
  - destruct k as [|k]; simpl; [constructor|].
    inversion Hs as [|? ? Hs' Hall]; subst.
    constructor; [now apply IH|].
    rewrite Forall_forall in *. intros y Hy. apply Hall.
    eapply in_firstn_in; exact Hy.
Qed.

Lemma sorted_nth_le (l : list nat) (i j a b : nat) :
  StronglySorted le l -> i <= j ->
  nth_error l i = Some a -> nth_error l j = Some b -> a <= b.
Proof.
  intros Hs. revert i j. induction Hs as [|x l Hs IH Hall]; intros i j Hij Hi Hj.
  - destruct i; discriminate.
  - destruct i as [|i], j as [|j]; simpl in *; try lia.
    + inversion Hi; inversion Hj; lia.
    + inversion Hi; subst. rewrite Forall_forall in Hall.
      apply Hall. eapply nth_error_In; exact Hj.
    + eapply IH; [|exact Hi|exact Hj]. lia.
Qed.

End StableSort.

Section EndMarkers.
Variable n : nat.

Lemma add_end_markers_starts (l : list ServiceInfo) :
  map start (add_end_markers n l) = map start l.
Proof.
  induction l as [|r [|r' rest] IH]; try reflexivity.
  change (add_end_markers n (r :: r' :: rest))
    with (with_end r (start r') :: add_end_markers n (r' :: rest)).
  cbn [map]. now rewrite IH.
Qed.

Lemma add_end_markers_length (l : list ServiceInfo) :
  length (add_end_markers n l) = length l.
Proof.
  rewrite <- (length_map start), add_end_markers_starts. apply length_map.
Qed.

(** The entry at position [i] is the old one with its end set to the
    start of the entry after it, or to [n] when it is the last. *)
Lemma add_end_markers_nth (l : list ServiceInfo) (i : nat) (a : ServiceInfo) :
  nth_error (add_end_markers n l) i = Some a ->
  exists r,
    nth_error l i = Some r
    /\ a = with_end r (match nth_error l (S i) with
                       | Some r' => start r'
                       | None => n
                       end).
Proof.
  revert i. induction l as [|r [|r' rest] IH]; intros i H.
  - destruct i; discriminate.
  - destruct i as [|i]; simpl in H.
    + inversion H. exists r. split; reflexivity.
    + destruct i; discriminate.
  - change (add_end_markers n (r :: r' :: rest))
      with (with_end r (start r') :: add_end_markers n (r' :: rest)) in H.
    destruct i as [|i].
    + inversion H. exists r. split; reflexivity.
    + apply IH in H as (r0 & Hr0 & ->). exists r0. split; [exact Hr0|reflexivity].
Qed.
End EndMarkers.

Section Scan.
Variable findall : string -> list service_match.

Lemma dict_set_Forall {V : Type} (P : V -> Prop) (k : string) (v : V)
  (d : list (string * V)) :
  P v -> Forall (fun kv => P (snd kv)) d ->
  Forall (fun kv => P (snd kv)) (dict_set k v d).
Proof.
  intros Hv. induction d as [|[k' v'] d IH]; simpl; intros Hd.
  - repeat constructor. exact Hv.
  - inversion Hd; subst.
    destruct (String.eqb k k'); constructor; auto.
Qed.

Lemma record_matches_bound (page_num bound : nat) (ms : list service_match)
  (idx : list (string * ServiceInfo)) :
  page_num < bound ->
  Forall (fun kv => start (snd kv) < bound) idx ->
  Forall (fun kv => start (snd kv) < bound)
         (fold_left (record_match page_num) ms idx).
Proof.
  intros Hb. revert idx. induction ms as [|[[sec name] hex] ms IH];
    intros idx Hidx; simpl; [exact Hidx|].
  apply IH.
  apply (dict_set_Forall (fun v => start v < bound)); [exact Hb | exact Hidx].
Qed.

Lemma scan_pages_bound (pages : list string) (page_num bound : nat)
  (idx : list (string * ServiceInfo)) :
  page_num + length pages <= bound ->
  Forall (fun kv => start (snd kv) < bound) idx ->
  Forall (fun kv => start (snd kv) < bound)
         (scan_pages findall pages page_num idx).
Proof.
  revert page_num idx. induction pages as [|text rest IH];
    intros page_num idx Hb Hidx; simpl in *; [exact Hidx|].
  apply IH; [lia|]. apply record_matches_bound; [lia | exact Hidx].
Qed.

(** Every service that was found starts on a page of the document. *)
Lemma service_index_starts (pages : list string) :
  Forall (fun r => start r < length pages)
         (dict_values (scan_pages findall pages 0 [])).
Proof.
  unfold dict_values. rewrite Forall_map.
  apply (scan_pages_bound pages 0 (length pages) []); [simpl; lia | constructor].
Qed.

Lemma sorted_ranges_starts (pages : list string) :
  Forall (fun r => start r < length pages)
    (firstn 5 (sorted_by_start (dict_values (scan_pages findall pages 0 [])))).
Proof.
  rewrite Forall_forall. intros r Hr.
  apply in_firstn_in in Hr.
  apply (Permutation_in _ (sorted_by_start_perm _)) in Hr.
  pose proof (service_index_starts pages) as H.
  rewrite Forall_forall in H. now apply H.
Qed.

End Scan.

Lemma nth_error_start (l : list ServiceInfo) (i : nat) (r : ServiceInfo) :
  nth_error l i = Some r -> nth_error (map start l) i = Some (start r).
Proof. intros H. rewrite nth_error_map, H. reflexivity. Qed.

(** C10.  For every document, the page ranges computed by the parser are in
    ascending order of start page and number at most 5; the end of each
    range is the start of the next one and the end of the last range is the
    page count of the document; every range has start <= end <= page
    count, and the pages of two different ranges never overlap. *)
Theorem page_ranges_sorted_contiguous
  (findall : string -> list service_match) (pages : list string) :
  StronglySorted le (map start (page_ranges findall pages))
  /\ length (page_ranges findall pages) <= 5
  /\ (forall i a b,
        nth_error (page_ranges findall pages) i = Some a ->
        nth_error (page_ranges findall pages) (S i) = Some b ->
        end_ a = Some (start b))
  /\ (forall front a,
        page_ranges findall pages = (front ++ [a])%list ->
        end_ a = Some (length pages))
  /\ (forall a,
        In a (page_ranges findall pages) ->
        exists e, end_ a = Some e /\ start a <= e <= length pages)
  /\ (forall i j a b p,
        i < j ->
        nth_error (page_ranges findall pages) i = Some a ->
        nth_error (page_ranges findall pages) j = Some b ->
        In p (pages_of a) -> ~ In p (pages_of b)).
Proof.
  unfold page_ranges.
  set (n := length pages).
  set (l := firstn 5 (sorted_by_start
                        (dict_values (scan_pages findall pages 0 [])))).
  assert (Hsorted : StronglySorted le (map start l)).
  { subst l. rewrite <- firstn_map. apply firstn_sorted, sorted_by_start_sorted. }
  assert (Hbound : Forall (fun r => start r < n) l)
    by apply sorted_ranges_starts.
  rewrite Forall_forall in Hbound.
  (* the end of the range at position [i] *)
  assert (Hend : forall i a,
             nth_error (add_end_markers n l) i = Some a ->
             exists r e,
               nth_error l i = Some r /\ start a = start r
               /\ end_ a = Some e /\ start r <= e <= n
               /\ (forall r', nth_error l (S i) = Some r' -> e = start r')
               /\ (nth_error l (S i) = None -> e = n)).
  { intros i a Ha. apply add_end_markers_nth in Ha as (r & Hr & ->).
    exists r. destruct (nth_error l (S i)) as [r'|] eqn:E.
    - exists (start r'). repeat split; try reflexivity; try exact Hr.
      + eapply (sorted_nth_le (map start l) i (S i)); eauto using nth_error_start.
      + apply Nat.lt_le_incl, Hbound. eapply nth_error_In; exact E.
      + intros r'' H; inversion H; reflexivity.
      + discriminate.
    - exists n. repeat split; try reflexivity; try exact Hr.
      + apply Nat.lt_le_incl, Hbound. eapply nth_error_In; exact Hr.
      + discriminate. }
  split; [now rewrite add_end_markers_starts|].
  split; [rewrite add_end_markers_length; subst l; apply firstn_le_length|].
  split; [|split; [|split]].
  - intros i a b Ha Hb.
    destruct (Hend _ _ Ha) as (r & e & _ & _ & He & _ & Hnext & _).
    destruct (Hend _ _ Hb) as (r' & e' & Hr' & Hsb & _).
    rewrite He, Hsb. f_equal. now apply Hnext.
  - intros front a Hrs.
    assert (Ha : nth_error (add_end_markers n l) (length front) = Some a).
    { rewrite Hrs, nth_error_app2, Nat.sub_diag by lia. reflexivity. }
    destruct (Hend _ _ Ha) as (r & e & _ & _ & He & _ & _ & Hlast).
    rewrite He. f_equal. apply Hlast. apply nth_error_None.
    rewrite <- (add_end_markers_length n l), Hrs, length_app. simpl. lia.
  - intros a Hin. apply In_nth_error in Hin as [i Ha].
    destruct (Hend _ _ Ha) as (r & e & _ & Hs & He & Hle & _).
    exists e. split; [exact He | lia].
  - intros i j a b p Hij Ha Hb Hpa Hpb.
    destruct (Hend _ _ Ha) as (r & e & Hr & Hsa & He & _ & Hnext & Hlast).
    destruct (Hend _ _ Hb) as (r' & e' & Hr' & Hsb & He' & _).
    unfold pages_of in Hpa, Hpb. rewrite He in Hpa. rewrite He' in Hpb.
    apply in_seq in Hpa. apply in_seq in Hpb.
    assert (Hnx : exists r1, nth_error l (S i) = Some r1).
    { destruct (nth_error l (S i)) eqn:E; [eauto|].
      apply nth_error_None in E.
      assert (j < length l) by (apply nth_error_Some; congruence). lia. }
    destruct Hnx as [r1 Hr1].
    assert (start r1 <= start r').
    { eapply (sorted_nth_le (map start l) (S i) j); eauto using nth_error_start. }
    rewrite (Hnext r1 Hr1) in Hpa. lia.
Qed.

(** On the demo document the index page is overridden by the later
    definitions, and the three ranges tile pages 3..7. *)
Lemma page_ranges_sorted_contiguous_witness :
  map (fun r => (service_name r, start r, end_ r))
      (page_ranges demo_findall demo_pages)
  = [("DiagnosticSessionControl", 3, Some 5);
     ("ECUReset", 5, Some 5);
     ("ReadDTCInformation", 5, Some 7)]
  /\ (forall a,
        In a (page_ranges demo_findall demo_pages) ->
        exists e, end_ a = Some e /\ start a <= e <= length demo_pages)
  /\ StronglySorted le (map start (page_ranges demo_findall demo_pages)).
Proof.
  split; [reflexivity|].
  destruct (page_ranges_sorted_contiguous demo_findall demo_pages)
    as (Hs & _ & _ & _ & Hin & _).
  split; [exact Hin | exact Hs].
Defined.

(* ================================================================== *)
(** * Part III.  Further properties of the code                        *)
(* ================================================================== *)

(** ** Normalisation of the router's decision *)

Lemma isspace_lower_char (c : ascii) : isspace (lower_char c) = isspace c.
Proof.
  destruct c as [b0 b1 b2 b3 b4 b5 b6 b7].
  destruct b0, b1, b2, b3, b4, b5, b6, b7; reflexivity.
Qed.

Lemma lower_app (a b : string) : lower (a ++ b) = lower a ++ lower b.
Proof. induction a as [|c a IH]; simpl; [reflexivity | now rewrite IH]. Qed.

Lemma lstrip_lower (s : string) : lstrip (lower s) = lower (lstrip s).
Proof.
  induction s as [|c s IH]; simpl; [reflexivity|].
  rewrite isspace_lower_char. destruct (isspace c); [exact IH | reflexivity].
Qed.

Lemma rstrip_lower (s : string) : rstrip (lower s) = lower (rstrip s).
Proof.
  induction s as [|c s IH]; simpl; [reflexivity|].
  rewrite IH, isspace_lower_char.
  destruct (rstrip s); simpl; [destruct (isspace c)|]; reflexivity.
Qed.

Lemma strip_lower (s : string) : strip (lower s) = lower (strip s).
Proof. unfold strip. now rewrite lstrip_lower, rstrip_lower. Qed.

Lemma lstrip_suffix (s : string) : exists pre, s = pre ++ lstrip s.
Proof.
  induction s as [|c s [pre IH]]; simpl.
  - exists EmptyString. reflexivity.
  - destruct (isspace c).
    + exists (String c pre). simpl. now rewrite <- IH.
    + exists EmptyString. reflexivity.
Qed.

Lemma rstrip_prefix (s : string) : exists post, s = rstrip s ++ post.
Proof.
  induction s as [|c s [post IH]]; simpl.
  - exists EmptyString. reflexivity.
  - destruct (rstrip s) as [|a r] eqn:E.
    + destruct (isspace c).
      * exists (String c s). reflexivity.
      * exists post. simpl. now rewrite IH at 1.
    + exists post. simpl. now rewrite IH at 1.
Qed.

Lemma append_assoc (a b c : string) : (a ++ b) ++ c = a ++ b ++ c.
Proof. induction a as [|x a IH]; simpl; [reflexivity | now rewrite IH]. Qed.

Lemma Substring_in_suffix (n pre s : string) :
  Substring n s -> Substring n (pre ++ s).
Proof.
  intros (a & b & ->). exists (pre ++ a), b. now rewrite append_assoc.
Qed.

Lemma Substring_in_prefix (n s post : string) :
  Substring n s -> Substring n (s ++ post).
Proof.
  intros (a & b & ->). exists a, (b ++ post). now rewrite !append_assoc.
Qed.

Lemma Substring_strip (n s : string) : Substring n (strip s) -> Substring n s.
Proof.
  unfold strip. intros H.
  destruct (lstrip_suffix s) as [pre E]. rewrite E.
  apply Substring_in_suffix.
  destruct (rstrip_prefix (lstrip s)) as [post E']. rewrite E'.
  now apply Substring_in_prefix.
Qed.

(** A needle that starts with a non-space character survives [lstrip]. *)
Lemma Substring_lstrip (a : ascii) (n' s : string) :
  isspace a = false ->
  Substring (String a n') s -> Substring (String a n') (lstrip s).
Proof.
  intros Ha (pre & post & ->).
  induction pre as [|c pre IH]; simpl.
  - rewrite Ha. exists EmptyString, post. reflexivity.
  - destruct (isspace c); [exact IH|].
    exists (String c pre), post. reflexivity.
Qed.

Lemma rstrip_cons (c : ascii) (s : string) :
  rstrip s <> EmptyString -> rstrip (String c s) = String c (rstrip s).
Proof. simpl. destruct (rstrip s); [intros H; now elim H | reflexivity]. Qed.

Lemma rstrip_keeps_needle (a : ascii) (n' post : string) :
  no_space_in (String a n') ->
  exists t, rstrip (String a n' ++ post) = String a n' ++ t.
Proof.
  revert a. induction n' as [|b n' IH]; intros a [Ha Hn].
  - simpl. rewrite Ha. destruct (rstrip post) as [|x r].
    + exists EmptyString. reflexivity.
    + exists (String x r). reflexivity.
  - destruct (IH b Hn) as [t E].
    exists t. change (String a (String b n') ++ post)
                with (String a (String b n' ++ post)).
    rewrite rstrip_cons; rewrite E; [reflexivity | discriminate].
Qed.

Lemma Substring_rstrip (a : ascii) (n' s : string) :
  no_space_in (String a n') ->
  Substring (String a n') s -> Substring (String a n') (rstrip s).
Proof.
  intros Hn (pre & post & ->).
  induction pre as [|c pre IH].
  - destruct (rstrip_keeps_needle a n' post Hn) as [t E].
    change (EmptyString ++ String a n' ++ post) with (String a n' ++ post).
    rewrite E. exists EmptyString, t. reflexivity.
  - change (String c pre ++ String a n' ++ post)
      with (String c (pre ++ String a n' ++ post)).
    destruct IH as (p1 & p2 & E).
    rewrite rstrip_cons; rewrite E.
    + exists (String c p1), p2. reflexivity.
    + destruct p1; discriminate.
Qed.

Lemma Substring_strip_iff (a : ascii) (n' s : string) :
  no_space_in (String a n') ->
  Substring (String a n') (strip s) <-> Substring (String a n') s.
Proof.
  intros Hn. split; [apply Substring_strip|].
  intros H. unfold strip. apply Substring_rstrip; [exact Hn|].
  apply Substring_lstrip; [apply Hn | exact H].
Qed.

Lemma lower_eq_app (s a b : string) :
  lower s = a ++ b ->
  exists s1 s2, s = s1 ++ s2 /\ lower s1 = a /\ lower s2 = b.
Proof.
  revert s. induction a as [|x a IH]; intros s H.
  - exists EmptyString, s. auto.
  - destruct s as [|c s]; [discriminate|]. simpl in H. inversion H as [[Hc Hs]].
    destruct (IH s Hs) as (s1 & s2 & -> & <- & <-).
    exists (String c s1), s2. simpl. rewrite Hc. auto.
Qed.

Lemma Substring_lower (n s : string) :
  Substring n (lower s) <->
  exists pre w post, s = pre ++ w ++ post /\ lower w = n.
Proof.
  split.
  - intros (a & b & E).
    apply lower_eq_app in E as (s1 & s2 & -> & _ & E2).
    apply lower_eq_app in E2 as (w & s3 & -> & Hw & _).
    now exists s1, w, s3.
  - intros (pre & w & post & -> & <-).
    exists (lower pre), (lower post). now rewrite !lower_app.
Qed.

(** The embedding's [isspace] and [lower_char] agree with the tables. *)
Lemma spec_is_whitespace_isspace (c : ascii) : spec_is_whitespace c = isspace c.
Proof.
  destruct c as [b0 b1 b2 b3 b4 b5 b6 b7].
  destruct b0, b1, b2, b3, b4, b5, b6, b7; reflexivity.
Qed.

Lemma spec_lowercase_lower_char (c : ascii) : spec_lowercase c = lower_char c.
Proof.
  destruct c as [b0 b1 b2 b3 b4 b5 b6 b7].
  destruct b0, b1, b2, b3, b4, b5, b6, b7; reflexivity.
Qed.

Lemma spec_lowercased_lower (s : string) : spec_lowercased s = lower s.
Proof.
  induction s as [|c s IH]; simpl; [reflexivity|].
  now rewrite IH, spec_lowercase_lower_char.
Qed.

Lemma append_nil_r (s : string) : s ++ EmptyString = s.
Proof. induction s as [|c s IH]; simpl; [reflexivity | now rewrite IH]. Qed.

Lemma lstrip_decomp (s : string) :
  exists pre, s = pre ++ lstrip s /\ all_whitespace pre /\ starts_clean (lstrip s).
Proof.
  induction s as [|c s (pre & E & Hpre & Hc)]; simpl.
  - exists EmptyString. simpl. auto.
  - destruct (isspace c) eqn:Ec.
    + exists (String c pre). simpl. rewrite <- E.
      rewrite spec_is_whitespace_isspace. auto.
    + exists EmptyString. simpl. rewrite spec_is_whitespace_isspace. auto.
Qed.

Lemma rstrip_decomp (s : string) :
  exists post, s = rstrip s ++ post /\ all_whitespace post /\ ends_clean (rstrip s).
Proof.
  induction s as [|c s (post & E & Hpost & Hc)]; simpl.
  - exists EmptyString. simpl. auto.
  - destruct (rstrip s) as [|a r] eqn:Er.
    + destruct (isspace c) eqn:Ec.
      * exists (String c s). simpl. rewrite spec_is_whitespace_isspace.
        simpl in E. subst post. auto.
      * exists post. simpl. rewrite spec_is_whitespace_isspace.
        simpl in E. subst post. auto.
    + exists post. simpl in *. rewrite <- E. auto.
Qed.

Lemma rstrip_starts_clean (s : string) :
  starts_clean s -> starts_clean (rstrip s).
Proof.
  destruct s as [|c s]; simpl; [auto|]. intros Hc.
  rewrite spec_is_whitespace_isspace in Hc.
  destruct (rstrip s); [rewrite Hc|]; simpl;
    now rewrite spec_is_whitespace_isspace.
Qed.

Lemma lstrip_all_whitespace (pre s : string) :
  all_whitespace pre -> lstrip (pre ++ s) = lstrip s.
Proof.
  induction pre as [|c pre IH]; simpl; [reflexivity|]. intros [Hc Hpre].
  rewrite spec_is_whitespace_isspace in Hc. rewrite Hc. now apply IH.
Qed.

Lemma rstrip_all_whitespace (s post : string) :
  all_whitespace post -> rstrip (s ++ post) = rstrip s.
Proof.
  intros Hpost. induction s as [|c s IH]; simpl.
  - induction post as [|x post IHp]; simpl; [reflexivity|].
    destruct Hpost as [Hx Hpost]. rewrite spec_is_whitespace_isspace in Hx.
    now rewrite (IHp Hpost), Hx.
  - now rewrite IH.
Qed.

Lemma rstrip_ends_clean (s : string) : ends_clean s -> rstrip s = s.
Proof.
  induction s as [|c s IH]; [reflexivity|].
  destruct s as [|a r].
  - simpl. rewrite spec_is_whitespace_isspace. now intros ->.
  - intros H. change (ends_clean (String a r)) in H.
    rewrite rstrip_cons; rewrite (IH H); [reflexivity | discriminate].
Qed.

(** The decomposition of the specification determines the core: it is
    what [strip] returns. *)
Lemma strip_of_decomposition (pre core post : string) :
  all_whitespace pre -> all_whitespace post ->
  starts_clean core -> ends_clean core ->
  strip (pre ++ core ++ post) = core.
Proof.
  intros Hpre Hpost Hs He. unfold strip.
  rewrite (lstrip_all_whitespace pre _ Hpre).
  destruct core as [|a c].
  - simpl. rewrite <- (append_nil_r post) at 1.
    now rewrite (lstrip_all_whitespace post _ Hpost).
  - simpl in Hs. rewrite spec_is_whitespace_isspace in Hs.
    change (String a c ++ post) with (String a (c ++ post)).
    cbn [lstrip]. rewrite Hs.
    change (String a (c ++ post)) with (String a c ++ post).
    rewrite (rstrip_all_whitespace _ post Hpost).
    now apply rstrip_ends_clean.
Qed.

Lemma normalize_is_SpecNormalized (raw : string) :
  SpecNormalized raw (normalize raw).
Proof.
  destruct (lstrip_decomp raw) as (pre & E1 & Hpre & Hs).
  destruct (rstrip_decomp (lstrip raw)) as (post & E2 & Hpost & He).
  exists pre, (strip raw), post. unfold strip, normalize.
  repeat split; auto.
  - now rewrite <- E2.
  - now apply rstrip_starts_clean.
  - symmetry. apply spec_lowercased_lower.
Qed.

Lemma SpecNormalized_unique (raw d : string) :
  SpecNormalized raw d -> d = normalize raw.
Proof.
  intros (pre & core & post & -> & Hpre & Hpost & Hs & He & ->).
  unfold normalize.
  now rewrite (strip_of_decomposition pre core post), spec_lowercased_lower.
Qed.

(** C1.  Whenever the model answers the routing prompt with the raw string
    [raw], the router makes that one model call and returns a route chosen
    from the normal form of [raw], the raw string with the whitespace at
    both ends removed and every letter lower-cased (that normal form exists
    and is unique): the route is "weather" when the normal form contains
    the substring "weather", and "rag" (the retrieval path) for every other
    normal form, the empty one included; it is never anything else, and the
    graph's conditional edge sends the first to the weather tool and the
    second to the retrieval tool. *)
Theorem router_routes_on_weather_substring
  (w : World) (st : AgentState) (tr : trace) (raw : string) :
  llm_invoke w (router_prompt (query st)) = Ok raw ->
  exists d r,
    SpecNormalized raw d
    /\ (forall d', SpecNormalized raw d' -> d' = d)
    /\ router_node w st tr =
         (Ok {| set_route := Some r; set_documents := None;
                set_weather_data := None; set_response := None;
                set_sender := None |},
          (tr ++ [LlmInvoke (router_prompt (query st))])%list)
    /\ (Substring "weather" d ->
        r = "weather" /\ successor (Some r) router = Some weather_tool)
    /\ (~ Substring "weather" d ->
        r = "rag" /\ successor (Some r) router = Some rag_tool)
    /\ (r = "weather" \/ r = "rag").
Proof.
  intros Hllm.
  exists (normalize raw), (route_of_decision (normalize raw)).
  split; [apply normalize_is_SpecNormalized|].
  split; [intros d'; apply SpecNormalized_unique|].
  rewrite router_node_run, Hllm. split; [reflexivity|].
  split; [|split].
  - intros H. apply route_of_decision_weather in H. rewrite H. now split.
  - intros H. apply route_of_decision_rag in H. rewrite H. now split.
  - apply route_of_decision_cases.
Qed.

(** A padded, capitalised "Weather" goes to the weather tool. *)
Lemma router_routes_on_weather_substring_witness :
  llm_invoke (mock_world (Ok (" Weather" ++ nl)) (Raise (ModelError "unused")) []
                         (GetRaises "unused"))
             (router_prompt (query (initial_state weather_query [])))
    = Ok (" Weather" ++ nl)
  /\ SpecNormalized (" Weather" ++ nl) "weather"
  /\ router_node (mock_world (Ok (" Weather" ++ nl)) (Raise (ModelError "unused")) []
                             (GetRaises "unused"))
                 (initial_state weather_query []) []
     = (Ok {| set_route := Some "weather"; set_documents := None;
              set_weather_data := None; set_response := None;
              set_sender := None |},
        [LlmInvoke (router_prompt weather_query)]).
Proof.
  assert (HN : SpecNormalized (" Weather" ++ nl) "weather").
  { exists " ", "Weather", nl. repeat split. }
  split; [reflexivity|]. split; [exact HN|].
  destruct (router_routes_on_weather_substring
              (mock_world (Ok (" Weather" ++ nl)) (Raise (ModelError "unused")) []
                          (GetRaises "unused"))
              (initial_state weather_query []) [] (" Weather" ++ nl) eq_refl)
    as (d & r & _ & Huniq & Hrun & Hweather & _).
  rewrite <- (Huniq _ HN) in Hweather.
  assert (Hsub : Substring "weather" "weather")
    by (exists EmptyString, EmptyString; reflexivity).
  destruct (Hweather Hsub) as [Hr _]. rewrite Hr in Hrun. exact Hrun.
Defined.

(** X1.  The router chooses the weather route exactly when the model's raw
    answer contains, anywhere, a word that lower-cases to "weather"; the
    stripping of surrounding whitespace never changes the route. *)
Theorem route_is_weather_iff_raw_mentions_weather (raw : string) :
  (route_of_decision (normalize raw) = "weather" <->
   exists pre word post, raw = pre ++ word ++ post /\ lower word = "weather")
  /\ route_of_decision (normalize raw) = route_of_decision (lower raw).
Proof.
  assert (Hns : no_space_in "weather") by (repeat split).
  assert (Hiff : Substring "weather" (normalize raw)
                 <-> Substring "weather" (lower raw)).
  { unfold normalize. rewrite <- strip_lower.
    exact (Substring_strip_iff _ _ (lower raw) Hns). }
  split.
  - rewrite route_of_decision_weather, Hiff. apply Substring_lower.
  - unfold route_of_decision.
    destruct (contains "weather" (normalize raw)) eqn:A;
      destruct (contains "weather" (lower raw)) eqn:B; try reflexivity.
    + apply contains_spec, Hiff, contains_spec in A. congruence.
    + apply contains_spec, Hiff, contains_spec in B. congruence.
Qed.

(** ** A turn of the graph, call by call *)

(** The run of the graph is the router, the tool its decision names, and
    the responder, each stopping the turn when it raises. *)
Lemma app_invoke_unfold (w : World) (inputs : AgentState) (tr : trace) :
  app_invoke w inputs tr =
  let t1 := (tr ++ [LlmInvoke (router_prompt (query inputs))])%list in
  match llm_invoke w (router_prompt (query inputs)) with
  | Raise e => (Raise e, t1)
  | Ok raw =>
      let s1 :=
        apply_update inputs
          {| set_route := Some (route_of_decision (normalize raw));
             set_documents := None; set_weather_data := None;
             set_response := None; set_sender := None |} in
      let tool :=
        if contains "weather" (normalize raw) then weather_tool else rag_tool in
      match node_fn w tool s1 t1 with
      | (Raise e, t2) => (Raise e, t2)
      | (Ok u2, t2) =>
          match response_generator_node w (apply_update s1 u2) t2 with
          | (Raise e, t3) => (Raise e, t3)
          | (Ok u3, t3) =>
              (Ok (apply_update (apply_update s1 u2) u3,
                   [router; tool; responder]), t3)
          end
      end
  end.
Proof.
  unfold app_invoke, entry_point, recursion_limit.
  rewrite run_step by discriminate. cbn [node_fn].
  rewrite router_node_run.
  destruct (llm_invoke w (router_prompt (query inputs))) as [raw|e];
    [|reflexivity].
  cbv zeta.
  set (s1 := apply_update inputs _).
  assert (Hr : route s1 = Some (route_of_decision (normalize raw)))
    by reflexivity.
  rewrite Hr. unfold route_of_decision at 1.
  destruct (contains "weather" (normalize raw)).
  - change (successor (Some "weather") router) with (Some weather_tool).
    cbv beta iota. rewrite run_step by discriminate.
    destruct (node_fn w weather_tool s1 _) as [[u2|e] t2]; [|reflexivity].
    change (successor (route (apply_update s1 u2)) weather_tool)
      with (Some responder).
    cbv beta iota. rewrite run_step by discriminate. cbn [node_fn].
    destruct (response_generator_node w (apply_update s1 u2) t2)
      as [[u3|e] t3]; [|reflexivity].
    change (successor (route (apply_update (apply_update s1 u2) u3)) responder)
      with (Some END).
    cbv beta iota. now rewrite run_END.
  - change (successor (Some "rag") router) with (Some rag_tool).
    cbv beta iota. rewrite run_step by discriminate.
    destruct (node_fn w rag_tool s1 _) as [[u2|e] t2]; [|reflexivity].
    change (successor (route (apply_update s1 u2)) rag_tool)
      with (Some responder).
    cbv beta iota. rewrite run_step by discriminate. cbn [node_fn].
    destruct (response_generator_node w (apply_update s1 u2) t2)
      as [[u3|e] t3]; [|reflexivity].
    change (successor (route (apply_update (apply_update s1 u2) u3)) responder)
      with (Some END).
    cbv beta iota. now rewrite run_END.
Qed.

Lemma rag_node_trace (w : World) (st : AgentState) (tr : trace) :
  snd (rag_node w st tr) = (tr ++ [RetrieverInvoke (query st) 5])%list.
Proof. now rewrite rag_node_run. Qed.

Lemma weather_node_trace (w : World) (st : AgentState) (tr : trace) :
  snd (weather_node w st tr) = (tr ++ [LlmStructured (query st)])%list
  \/ exists c,
       snd (weather_node w st tr)
       = (tr ++ [LlmStructured (query st);
                 HttpGet base_url (weather_params w c)])%list.
Proof.
  rewrite weather_node_run.
  destruct (llm_structured w (query st)) as [[wi|]|e]; try (now left).
  destruct (city wi) as [|a c] eqn:E; [now left|].
  right. exists (String a c). reflexivity.
Qed.

Lemma responder_trace (w : World) (st : AgentState) (tr : trace) :
  snd (response_generator_node w st tr) = tr
  \/ exists prompt,
       snd (response_generator_node w st tr) = (tr ++ [LlmInvoke prompt])%list.
Proof.
  destruct (documents st) as [[|d ds]|] eqn:Hd;
    try (right; eexists; rewrite (responder_documents w st tr d ds Hd);
         reflexivity);
    (destruct (weather_data st) as [[|kv rest]|] eqn:Hw;
     [ left; rewrite responder_fallback by (rewrite ?Hd, ?Hw; reflexivity);
       reflexivity
     | right; eexists;
       rewrite (responder_weather w st tr kv rest) by (rewrite ?Hd; easy);
       reflexivity
     | left; rewrite responder_fallback by (rewrite ?Hd, ?Hw; reflexivity);
       reflexivity ]).
Qed.

(** X2.  Whatever its outcome, a turn makes between one and three model
    calls, at most one request to the vector store and at most one HTTP
    request, and never both a store request and an HTTP request. *)
Theorem turn_call_budget (w : World) (inputs : AgentState) (tr : trace) :
  exists calls,
    snd (app_invoke w inputs tr) = (tr ++ calls)%list
    /\ 1 <= model_calls calls <= 3
    /\ retriever_calls calls <= 1
    /\ http_calls calls <= 1
    /\ retriever_calls calls + http_calls calls <= 1
    /\ (retriever_calls calls = 1 -> model_calls calls <= 2).
Proof.
  rewrite app_invoke_unfold. cbv zeta.
  set (t1 := (tr ++ [LlmInvoke (router_prompt (query inputs))])%list).
  destruct (llm_invoke w (router_prompt (query inputs))) as [raw|e].
  2:{ eexists. split; [reflexivity|]. cbv. lia. }
  set (s1 := apply_update inputs _).
  destruct (contains "weather" (normalize raw)); cbn [node_fn].
  - destruct (weather_node_trace w s1 t1) as [Ht|[c Ht]];
      destruct (weather_node w s1 t1) as [[u2|e] t2]; simpl in Ht; subst t2;
      try (eexists; split; [unfold t1; rewrite <- app_assoc; reflexivity|];
           cbv; lia);
      match goal with
      | |- context [response_generator_node w ?s ?t] =>
          destruct (responder_trace w s t) as [Hr|[prompt Hr]];
          destruct (response_generator_node w s t) as [[u3|e3] t3];
          simpl in Hr; subst t3;
          (eexists; split;
           [unfold t1; rewrite <- ?app_assoc; reflexivity | cbv; lia])
      end.
  - pose proof (rag_node_trace w s1 t1) as Ht.
    destruct (rag_node w s1 t1) as [[u2|e] t2]; simpl in Ht; subst t2;
      try (eexists; split; [unfold t1; rewrite <- app_assoc; reflexivity|];
           cbv; lia);
      match goal with
      | |- context [response_generator_node w ?s ?t] =>
          destruct (responder_trace w s t) as [Hr|[prompt Hr]];
          destruct (response_generator_node w s t) as [[u3|e3] t3];
          simpl in Hr; subst t3;
          (eexists; split;
           [unfold t1; rewrite <- ?app_assoc; reflexivity | cbv; lia])
      end.
Qed.

(** X4.  A turn stops at the first call that raises: after a failing
    routing call nothing else is called; on the retrieval path a failing
    store search is the last call, so the responder's model is not asked;
    on the weather path a failing city extraction is the last call, so no
    HTTP request is made. *)
Theorem turn_stops_at_first_failure
  (w : World) (inputs : AgentState) (tr : trace) (e : exn) :
  let q := query inputs in
  (llm_invoke w (router_prompt q) = Raise e ->
   app_invoke w inputs tr = (Raise e, (tr ++ [LlmInvoke (router_prompt q)])%list))
  /\ (forall raw,
        llm_invoke w (router_prompt q) = Ok raw ->
        route_of_decision (normalize raw) = "rag" ->
        similarity_search w q 5 = Raise e ->
        app_invoke w inputs tr
        = (Raise e, (tr ++ [LlmInvoke (router_prompt q);
                            RetrieverInvoke q 5])%list))
  /\ (forall raw,
        llm_invoke w (router_prompt q) = Ok raw ->
        route_of_decision (normalize raw) = "weather" ->
        llm_structured w q = Raise e ->
        app_invoke w inputs tr
        = (Raise e, (tr ++ [LlmInvoke (router_prompt q);
                            LlmStructured q])%list)).
Proof.
  cbv zeta. split; [|split].
  - intros H. rewrite app_invoke_unfold. cbv zeta. now rewrite H.
  - intros raw H Hr Hs. rewrite app_invoke_unfold. cbv zeta. rewrite H.
    unfold route_of_decision in Hr.
    destruct (contains "weather" (normalize raw)); [discriminate|].
    cbn [node_fn]. rewrite rag_node_run.
    change (query (apply_update inputs _)) with (query inputs).
    rewrite Hs. now rewrite <- app_assoc.
  - intros raw H Hr Hs. rewrite app_invoke_unfold. cbv zeta. rewrite H.
    unfold route_of_decision in Hr.
    destruct (contains "weather" (normalize raw)); [|discriminate].
    cbn [node_fn]. rewrite weather_node_run.
    change (query (apply_update inputs _)) with (query inputs).
    rewrite Hs. now rewrite <- app_assoc.
Qed.

Lemma turn_stops_at_first_failure_witness :
  app_invoke (mock_world (Raise (ModelError "quota")) (Ok {| city := "Pune" |}) []
                         (GetReturns ok_response))
             (initial_state rag_query []) []
  = (Raise (ModelError "quota"), [LlmInvoke (router_prompt rag_query)]).
Proof.
  destruct (turn_stops_at_first_failure
              (mock_world (Raise (ModelError "quota")) (Ok {| city := "Pune" |}) []
                          (GetReturns ok_response))
              (initial_state rag_query []) [] (ModelError "quota"))
    as (H & _).
  exact (H eq_refl).
Defined.

(** X5.  What a completed turn on fresh inputs consists of.  On the
    retrieval path: the routing call, one store search, and, unless the
    store returned no chunk, one model call on the prompt built from the
    chunk texts, whose content is the response; with no chunk the response
    is the fallback string.  On the weather path: the routing call, the
    city extraction, the HTTP request unless the city is empty, and, unless
    the payload is the empty dict, one model call on the weather prompt
    showing that payload, whose content is the response. *)
Theorem completed_turn_outcome
  (w : World) (q : string) (msgs : list string) (tr : trace)
  (st : AgentState) (visited : list node) (tr' : trace) :
  app_invoke w (initial_state q msgs) tr = (Ok (st, visited), tr') ->
  (exists docs,
     visited = [router; rag_tool; responder]
     /\ similarity_search w q 5 = Ok docs
     /\ documents st = Some (map page_content docs)
     /\ weather_data st = None
     /\ ((docs = []
          /\ response st = Some fallback_response
          /\ tr' = (tr ++ [LlmInvoke (router_prompt q);
                           RetrieverInvoke q 5])%list)
         \/ (docs <> []
             /\ exists text,
                 llm_invoke w (rag_prompt (join (nl ++ nl) (map page_content docs)) q)
                 = Ok text
                 /\ response st = Some text
                 /\ tr' = (tr ++ [LlmInvoke (router_prompt q);
                                  RetrieverInvoke q 5;
                                  LlmInvoke (rag_prompt
                                               (join (nl ++ nl) (map page_content docs))
                                               q)])%list)))
  \/ (exists wi p http,
        visited = [router; weather_tool; responder]
        /\ llm_structured w q = Ok (Some wi)
        /\ ((city wi = EmptyString
             /\ p = error_payload no_city_message /\ http = [])
            \/ (city wi <> EmptyString
                /\ p = fetch_weather_result w (length tr + 2) (city wi)
                /\ http = [HttpGet base_url (weather_params w (city wi))]))
        /\ documents st = None
        /\ weather_data st = Some p
        /\ ((p = []
             /\ response st = Some fallback_response
             /\ tr' = (tr ++ [LlmInvoke (router_prompt q); LlmStructured q]
                          ++ http)%list)
            \/ (p <> []
                /\ exists text,
                    llm_invoke w (weather_prompt q (str_of_dict w p)) = Ok text
                    /\ response st = Some text
                    /\ tr' = (tr ++ [LlmInvoke (router_prompt q); LlmStructured q]
                                 ++ http
                                 ++ [LlmInvoke (weather_prompt q (str_of_dict w p))])%list))).
Proof.
  rewrite app_invoke_unfold. cbv zeta.
  change (query (initial_state q msgs)) with q.
  destruct (llm_invoke w (router_prompt q)) as [raw|e0]; [|discriminate].
  set (s1 := apply_update (initial_state q msgs) _).
  set (t1 := (tr ++ [LlmInvoke (router_prompt q)])%list).
  destruct (contains "weather" (normalize raw)); cbn [node_fn].
  - (* weather path *)
    right. rewrite weather_node_run in H. change (query s1) with q in H.
    destruct (llm_structured w q) as [[wi|]|e1] eqn:Ex; try discriminate.
    replace (S (length t1)) with (length tr + 2) in H
      by (unfold t1; rewrite length_app; simpl; lia).
    assert (Hcases :
      exists p http,
        ((city wi = EmptyString /\ p = error_payload no_city_message /\ http = [])
         \/ (city wi <> EmptyString
             /\ p = fetch_weather_result w (length tr + 2) (city wi)
             /\ http = [HttpGet base_url (weather_params w (city wi))]))
        /\ match response_generator_node w
                   (apply_update s1 (weather_update p))
                   (t1 ++ [LlmStructured q] ++ http)%list with
           | (Raise e, t3) => (Raise e, t3)
           | (Ok u3, t3) =>
               (Ok (apply_update (apply_update s1 (weather_update p)) u3,
                    [router; weather_tool; responder]), t3)
           end = (Ok (st, visited), tr')).
    { destruct (city wi) as [|a c] eqn:Ec.
      - exists (error_payload no_city_message), []. split; [left; auto|].
        exact H.
      - exists (fetch_weather_result w (length tr + 2) (String a c)),
          [HttpGet base_url (weather_params w (String a c))].
        split; [right; repeat split; discriminate|].
        unfold t1 in *. rewrite <- app_assoc in H. rewrite <- app_assoc.
        exact H. }
    clear H. destruct Hcases as (p & http & Hp & H).
    exists wi, p, http. split; [|split; [reflexivity|split; [exact Hp|]]].
    + destruct (response_generator_node w _ _) as [[u3|e3] t3];
        [|discriminate]. now inversion H.
    + destruct p as [|kv rest].
      * rewrite responder_fallback in H by reflexivity.
        inversion H; subst st visited tr'.
        split; [reflexivity|]. split; [reflexivity|]. left.
        split; [reflexivity|]. split; [reflexivity|].
        unfold t1. now rewrite <- !app_assoc.
      * rewrite (responder_weather w _ _ kv rest) in H by reflexivity.
        unfold answered_by in H.
        change (query (apply_update s1 (weather_update (kv :: rest)))) with q in H.
        destruct (llm_invoke w (weather_prompt q (str_of_dict w (kv :: rest))))
          as [text|e3] eqn:E3; [|discriminate].
        inversion H; subst st visited tr'.
        split; [reflexivity|]. split; [reflexivity|]. right.
        split; [discriminate|]. exists text.
        split; [reflexivity|]. split; [reflexivity|].
        unfold t1. now rewrite <- !app_assoc.
  - (* retrieval path *)
    left. rewrite rag_node_run in H. change (query s1) with q in H.
    destruct (similarity_search w q 5) as [docs|e1] eqn:Es; [|discriminate].
    exists docs. destruct docs as [|d ds].
    + rewrite responder_fallback in H by reflexivity.
      inversion H; subst st visited tr'.
      repeat (split; [reflexivity|]). left.
      repeat (split; [reflexivity|]).
      unfold t1. now rewrite <- !app_assoc.
    + rewrite (responder_documents w _ _ (page_content d) (map page_content ds))
        in H by reflexivity.
      unfold answered_by in H.
      change (query (apply_update s1 _)) with q in H.
      change (page_content d :: map page_content ds)
        with (map page_content (d :: ds)) in H.
      destruct (llm_invoke w (rag_prompt (join (nl ++ nl)
                                            (map page_content (d :: ds))) q))
        as [text|e3] eqn:E3; [|discriminate].
      inversion H; subst st visited tr'.
      repeat (split; [reflexivity|]). right.
      split; [discriminate|]. exists text.
      repeat (split; [reflexivity|]).
      unfold t1. now rewrite <- !app_assoc.
Qed.

Lemma completed_turn_outcome_witness :
  exists st visited tr',
    app_invoke chatty_world (initial_state rag_query []) []
      = (Ok (st, visited), tr')
    /\ model_calls tr' = 2 /\ retriever_calls tr' = 1 /\ http_calls tr' = 0
    /\ response st = Some "It is hazy, 25 degrees.".
Proof.
  assert (E : exists st visited tr',
             app_invoke chatty_world (initial_state rag_query []) []
             = (Ok (st, visited), tr'))
    by (do 3 eexists; vm_compute; reflexivity).
  destruct E as (st & visited & tr' & E).
  exists st, visited, tr'. split; [exact E|].
  destruct (completed_turn_outcome _ _ _ _ _ _ _ E)
    as [(docs & _ & Hs & _ & _ & [(Hd & _)|(_ & text & Hl & Hr & ->)])
       |(wi & p & http & Hv & _)].
  - rewrite Hd in Hs. vm_compute in Hs. discriminate Hs.
  - vm_compute in Hs. injection Hs as Hs. subst docs.
    vm_compute in Hl. injection Hl as Hl. subst text.
    repeat split; [reflexivity .. | exact Hr].
  - rewrite Hv in E. vm_compute in E. discriminate E.
Defined.

(** X6.  No weather error is swallowed: when a completed turn on fresh
    inputs leaves an error payload in [weather_data] (city not identified,
    city not found, HTTP error, request failure), the response is the
    content the model returned for the weather prompt that shows this
    payload, and that model call is the last call of the turn. *)
Theorem weather_error_is_narrated
  (w : World) (q : string) (msgs : list string) (tr : trace)
  (st : AgentState) (visited : list node) (tr' : trace) (msg : string) :
  app_invoke w (initial_state q msgs) tr = (Ok (st, visited), tr') ->
  weather_data st = Some (error_payload msg) ->
  exists text before,
    llm_invoke w (weather_prompt q (str_of_dict w (error_payload msg))) = Ok text
    /\ response st = Some text
    /\ tr' = (before
              ++ [LlmInvoke (weather_prompt q (str_of_dict w (error_payload msg)))])%list.
Proof.
  intros H Hw.
  destruct (app_invoke_completed _ _ _ _ _ _ H)
    as (u1 & t1 & tool & u2 & t2 & u3 & _ & Htool & Hd1 & Hw1 & E2 & E3 & -> & _).
  pose proof E3 as E3'.
  apply responder_sets in E3' as (text & -> & _).
  destruct Htool as [[_ ->]|[_ ->]]; cbn [node_fn] in E2.
  - apply rag_node_sets in E2 as [texts ->].
    cbn in Hw. rewrite Hw1 in Hw. discriminate Hw.
  - apply weather_node_sets in E2 as [p ->].
    cbn in Hw. inversion Hw; subst p.
    rewrite (responder_weather w _ _ ("error", JStr msg) []) in E3.
    + unfold answered_by in E3.
      change (query (apply_update _ _)) with q in E3.
      destruct (llm_invoke w (weather_prompt q (str_of_dict w [("error", JStr msg)])))
        as [c|e] eqn:El; [|discriminate].
      inversion E3; subst. exists text, t2.
      split; [exact El|]. split; reflexivity.
    + cbn. now rewrite Hd1.
    + reflexivity.
Qed.

Lemma weather_error_is_narrated_witness :
  exists st visited tr',
    app_invoke (mock_world (Ok "weather") (Ok {| city := "Atlantis" |}) []
                           (GetReturns not_found_response))
               (initial_state "weather in Atlantis?" []) []
      = (Ok (st, visited), tr')
    /\ weather_data st = Some (error_payload "City 'Atlantis' not found.")
    /\ exists text before,
         response st = Some text
         /\ tr' = (before
                   ++ [LlmInvoke (weather_prompt "weather in Atlantis?" "{...}")])%list.
Proof.
  assert (E : exists st visited tr',
             app_invoke (mock_world (Ok "weather") (Ok {| city := "Atlantis" |}) []
                                    (GetReturns not_found_response))
                        (initial_state "weather in Atlantis?" []) []
             = (Ok (st, visited), tr')
             /\ weather_data st = Some (error_payload "City 'Atlantis' not found."))
    by (do 3 eexists; split; [vm_compute; reflexivity | reflexivity]).
  destruct E as (st & visited & tr' & E & Hw).
  exists st, visited, tr'. split; [exact E|]. split; [exact Hw|].
  destruct (weather_error_is_narrated _ _ _ _ _ _ _ _ E Hw)
    as (text & before & _ & Hr & Ht).
  exists text, before. split; [exact Hr | exact Ht].
Defined.

(** X8.  A completed turn leaves the query and the message list of its
    inputs untouched, and the last sender is "Agent". *)
Theorem completed_turn_keeps_query_and_messages
  (w : World) (inputs : AgentState) (tr : trace)
  (st : AgentState) (visited : list node) (tr' : trace) :
  app_invoke w inputs tr = (Ok (st, visited), tr') ->
  query st = query inputs
  /\ messages st = messages inputs
  /\ sender st = Some "Agent".
Proof.
  intros H.
  destruct (app_invoke_completed _ _ _ _ _ _ H)
    as (u1 & t1 & tool & u2 & t2 & u3 & _ & _ & _ & _ & _ & E3 & -> & _).
  apply responder_sets in E3 as (text & -> & _).
  repeat split.
Qed.

Lemma completed_turn_keeps_query_and_messages_witness :
  exists st visited tr',
    app_invoke chatty_world (chat_inputs weather_query) []
      = (Ok (st, visited), tr')
    /\ query st = weather_query
    /\ messages st = [weather_query]
    /\ sender st = Some "Agent".
Proof.
  assert (E : exists st visited tr',
             app_invoke chatty_world (chat_inputs weather_query) []
             = (Ok (st, visited), tr'))
    by (do 3 eexists; vm_compute; reflexivity).
  destruct E as (st & visited & tr' & E).
  exists st, visited, tr'. split; [exact E|].
  exact (completed_turn_keeps_query_and_messages _ _ _ _ _ _ E).
Defined.

(** ** The chat shell *)

Lemma completed_chat_turn_has_response (w : World) (p : string)
  (tr : trace) (st : AgentState) (visited : list node) (tr' : trace) :
  app_invoke w (chat_inputs p) tr = (Ok (st, visited), tr') ->
  exists reply, response st = Some reply.
Proof.
  intros H.
  destruct (app_invoke_completed _ _ _ _ _ _ H)
    as (u1 & t1 & tool & u2 & t2 & u3 & _ & _ & _ & _ & _ & E3 & -> & _).
  apply responder_sets in E3 as (text & -> & _).
  exists text. reflexivity.
Qed.

Lemma script_run_unfold (w : World) (session : option (list chat_message))
  (a : ascii) (p : string) (tr : trace) :
  script_run w session (Some (String a p)) tr =
  let messages := match session with None => greeting | Some m => m end in
  match app_invoke w (chat_inputs (String a p)) tr with
  | (Raise e, tr') => ((messages ++ [HumanMessage (String a p)])%list, Some e, tr')
  | (Ok (result, _), tr') =>
      ((messages ++ [HumanMessage (String a p);
                     AIMessage (match response result with
                                | Some r => r
                                | None => error_reply
                                end)])%list, None, tr')
  end.
Proof.
  unfold script_run. cbv zeta.
  destruct (app_invoke w (chat_inputs (String a p)) tr) as [[[st v]|e] tr'];
    [|reflexivity].
  now rewrite <- app_assoc.
Qed.

(** X9.  One run of the chat script only appends to the session messages,
    and what it appends does not depend on the earlier conversation: with
    no prompt nothing is appended and nothing is called; with a prompt the
    graph is run on that prompt alone; when the turn completes the prompt
    and the response stored in the final state are appended (the default
    error text is never used); when the turn raises only the prompt is
    appended. *)
Theorem script_run_appends_prompt_and_reply
  (w : World) (prompt : option string) (tr : trace) :
  exists suffix failure tr',
    (forall session,
       script_run w session prompt tr =
       ((match session with None => greeting | Some m => m end ++ suffix)%list,
        failure, tr'))
    /\ ((prompt = None \/ prompt = Some EmptyString) ->
        suffix = [] /\ failure = None /\ tr' = tr)
    /\ (forall p st visited t,
          prompt = Some p -> p <> EmptyString ->
          app_invoke w (chat_inputs p) tr = (Ok (st, visited), t) ->
          exists reply,
            response st = Some reply
            /\ suffix = [HumanMessage p; AIMessage reply]
            /\ failure = None /\ tr' = t)
    /\ (forall p e t,
          prompt = Some p -> p <> EmptyString ->
          app_invoke w (chat_inputs p) tr = (Raise e, t) ->
          suffix = [HumanMessage p] /\ failure = Some e /\ tr' = t).
Proof.
  destruct prompt as [[|a p]|].
  - exists [], None, tr. split; [|split; [|split]].
    + intros session. simpl. now rewrite app_nil_r.
    + auto.
    + intros p st visited t H Hne. inversion H; subst. now elim Hne.
    + intros p e t H Hne. inversion H; subst. now elim Hne.
  - destruct (app_invoke w (chat_inputs (String a p)) tr)
      as [[[st v]|e] t0] eqn:E.
    + destruct (completed_chat_turn_has_response w (String a p) tr st v t0 E)
        as [reply Hr].
      exists [HumanMessage (String a p); AIMessage reply], None, t0.
      split; [|split; [|split]].
      * intros session. rewrite script_run_unfold, E. cbv zeta. now rewrite Hr.
      * intros [H|H]; discriminate H.
      * intros p' st' visited t H _ E'. inversion H; subst p'.
        rewrite E in E'. inversion E'; subst. exists reply. auto.
      * intros p' e t H _ E'. inversion H; subst p'. rewrite E in E'.
        discriminate E'.
    + exists [HumanMessage (String a p)], (Some e), t0.
      split; [|split; [|split]].
      * intros session. rewrite script_run_unfold, E. reflexivity.
      * intros [H|H]; discriminate H.
      * intros p' st' visited t H _ E'. inversion H; subst p'.
        rewrite E in E'. discriminate E'.
      * intros p' e' t H _ E'. inversion H; subst p'. rewrite E in E'.
        inversion E'; subst. auto.
  - exists [], None, tr. split; [|split; [|split]].
    + intros session. simpl. now rewrite app_nil_r.
    + auto.
    + intros p st visited t H. discriminate H.
    + intros p e t H. discriminate H.
Qed.

Lemma script_run_suffix (w : World) (session : option (list chat_message))
  (prompt : option string) (tr : trace) :
  exists suffix failure tr',
    script_run w session prompt tr =
      ((match session with None => greeting | Some m => m end ++ suffix)%list,
       failure, tr')
    /\ human_contents suffix = submitted [prompt]
    /\ length suffix <= 2.
Proof.
  destruct prompt as [[|a p]|].
  - exists [], None, tr. simpl. rewrite app_nil_r. auto.
  - rewrite script_run_unfold. cbv zeta.
    destruct (app_invoke w (chat_inputs (String a p)) tr) as [[[st v]|e] t0];
      do 3 eexists; (split; [reflexivity|]); simpl; auto.
  - exists [], None, tr. simpl. rewrite app_nil_r. auto.
Qed.

Lemma human_contents_app (l1 l2 : list chat_message) :
  human_contents (l1 ++ l2)%list = (human_contents l1 ++ human_contents l2)%list.
Proof. unfold human_contents. apply flat_map_app. Qed.

(** X10.  Over a whole session the message log is append-only: after any
    sequence of script runs the log is the initial log followed by new
    messages; among these, the user messages are exactly the submitted
    prompts, in order, whether or not their turns completed, and at most
    two messages are added per run. *)
Theorem chat_session_logs_every_prompt
  (w : World) (session : option (list chat_message))
  (prompts : list (option string)) (tr : trace) :
  exists suffix,
    fst (chat_session w session prompts tr) =
      (match session with None => greeting | Some m => m end ++ suffix)%list
    /\ human_contents suffix = submitted prompts
    /\ length suffix <= 2 * length prompts.
Proof.
  revert session tr. induction prompts as [|p rest IH]; intros session tr.
  - exists []. simpl. rewrite app_nil_r. auto.
  - cbn [chat_session].
    destruct (script_run_suffix w session p tr)
      as (s1 & failure & tr' & E & Hh & Hl).
    rewrite E.
    destruct (IH (Some (match session with None => greeting | Some m => m end
                        ++ s1)%list) tr') as (s2 & E2 & Hh2 & Hl2).
    exists (s1 ++ s2)%list. split; [|split].
    + rewrite E2. now rewrite app_assoc.
    + rewrite human_contents_app, Hh, Hh2. unfold submitted. simpl.
      now rewrite app_nil_r.
    + rewrite length_app. simpl. lia.
Qed.

(** ** The service index of the ingestion parser *)

Lemma dict_get_dict_set {V : Type} (name k : string) (v : V)
  (d : list (string * V)) :
  dict_get name (dict_set k v d) =
  if String.eqb name k then Some v else dict_get name d.
Proof.
  induction d as [|[k' v'] d IH]; simpl.
  - destruct (String.eqb name k); reflexivity.
  - destruct (String.eqb_spec k k') as [->|Hk]; simpl.
    + destruct (String.eqb name k'); reflexivity.
    + destruct (String.eqb_spec name k') as [->|Hn].
      * destruct (String.eqb_spec k' k) as [->|_]; [now elim Hk | reflexivity].
      * exact IH.
Qed.

Lemma dict_set_keys {V : Type} (k : string) (v : V) (d : list (string * V))
  (x : string) :
  In x (map fst (dict_set k v d)) <-> x = k \/ In x (map fst d).
Proof.
  induction d as [|[k' v'] d IH]; simpl.
  - intuition (subst; auto).
  - destruct (String.eqb_spec k k') as [->|Hk]; simpl.
    + intuition (subst; auto).
    + rewrite IH. intuition (subst; auto).
Qed.

Lemma dict_set_NoDup {V : Type} (k : string) (v : V) (d : list (string * V)) :
  NoDup (map fst d) -> NoDup (map fst (dict_set k v d)).
Proof.
  induction d as [|[k' v'] d IH]; simpl; intros Hd.
  - repeat constructor. auto.
  - inversion Hd as [|? ? Hnin Hd']; subst.
    destruct (String.eqb_spec k k') as [->|Hk]; simpl.
    + now constructor.
    + constructor; [|now apply IH].
      rewrite dict_set_keys. intros [H|H]; [now elim Hk | contradiction].
Qed.

Lemma dict_get_In {V : Type} (k : string) (v : V) (d : list (string * V)) :
  NoDup (map fst d) -> In (k, v) d -> dict_get k d = Some v.
Proof.
  induction d as [|[k' v'] d IH]; simpl; intros Hd Hin; [contradiction|].
  destruct Hin as [H|H].
  - inversion H; subst. now rewrite String.eqb_refl.
  - inversion Hd as [|? ? Hnin Hd']; subst.
    destruct (String.eqb_spec k k') as [->|_]; [|now apply IH].
    elim Hnin. change k' with (fst (k', v)). now apply in_map.
Qed.

Lemma record_match_eq (page_num : nat) (idx : list (string * ServiceInfo))
  (m : service_match) :
  record_match page_num idx m =
  dict_set (match_name m) (info_of_match page_num m) idx.
Proof. destruct m as [[sec name] hex]. reflexivity. Qed.

(** The index after some matches have been recorded, one after the other. *)
Lemma scan_pages_flat (findall : string -> list service_match)
  (pages : list string) (page_num : nat) (idx : list (string * ServiceInfo)) :
  scan_pages findall pages page_num idx =
  fold_left (fun acc e => record_match (fst e) acc (snd e))
            (all_matches findall pages page_num) idx.
Proof.
  revert page_num idx. induction pages as [|text rest IH]; intros page_num idx.
  - reflexivity.
  - cbn [scan_pages all_matches]. rewrite fold_left_app, IH. f_equal.
    generalize (findall text) idx. clear.
    induction l as [|m l IH]; intros idx; simpl; [reflexivity | apply IH].
Qed.

Lemma fold_record_lookup (name : string) (evs : list (nat * service_match))
  (idx : list (string * ServiceInfo)) :
  dict_get name (fold_left (fun acc e => record_match (fst e) acc (snd e)) evs idx)
  = match last_match name evs with
    | Some i => Some i
    | None => dict_get name idx
    end.
Proof.
  revert idx. induction evs as [|[p m] evs IH]; intros idx; simpl.
  - reflexivity.
  - rewrite IH. destruct (last_match name evs); [reflexivity|].
    rewrite record_match_eq, dict_get_dict_set.
    destruct (String.eqb name (match_name m)); reflexivity.
Qed.

Lemma fold_record_NoDup (evs : list (nat * service_match))
  (idx : list (string * ServiceInfo)) :
  NoDup (map fst idx) ->
  NoDup (map fst (fold_left (fun acc e => record_match (fst e) acc (snd e))
                            evs idx)).
Proof.
  revert idx. induction evs as [|[p m] evs IH]; intros idx H; simpl;
    [exact H|].
  apply IH. rewrite record_match_eq. now apply dict_set_NoDup.
Qed.

Lemma fold_record_keys (evs : list (nat * service_match))
  (idx : list (string * ServiceInfo)) :
  Forall (fun kv => fst kv = service_name (snd kv)) idx ->
  Forall (fun kv => fst kv = service_name (snd kv))
         (fold_left (fun acc e => record_match (fst e) acc (snd e)) evs idx).
Proof.
  revert idx. induction evs as [|[p m] evs IH]; intros idx H; simpl;
    [exact H|].
  apply IH. rewrite record_match_eq.
  assert (Hm : match_name m = service_name (info_of_match p m))
    by (destruct m as [[sec name] hex]; reflexivity).
  revert Hm. generalize (match_name m) (info_of_match p m). intros k v Hk.
  induction idx as [|[k' v'] idx IHi]; simpl.
  - repeat constructor. exact Hk.
  - inversion_clear H as [|? ? Hh Ht]. simpl in Hh.
    destruct (String.eqb_spec k k') as [E|_]; constructor; auto.
    simpl. congruence.
Qed.

Lemma service_index_lookup
  (findall : string -> list service_match) (pages : list string)
  (name : string) :
  dict_get name (scan_pages findall pages 0 [])
  = last_match name (all_matches findall pages 0)
  /\ NoDup (map fst (scan_pages findall pages 0 [])).
Proof.
  rewrite scan_pages_flat. split.
  - rewrite fold_record_lookup.
    destruct (last_match name (all_matches findall pages 0)); reflexivity.
  - apply fold_record_NoDup. constructor.
Qed.

(** X11.  The overwriting loop keeps, for each service name, the last
    match of that name in reading order: looking a name up in the index
    gives the entry built from the last match that names it, and nothing
    when no match names it.  The index holds one entry per name. *)
Theorem service_index_holds_last_match
  (findall : string -> list service_match) (pages : list string)
  (name : string) :
  dict_get name (scan_pages findall pages 0 [])
  = last_match name (all_matches findall pages 0)
  /\ NoDup (map fst (scan_pages findall pages 0 [])).
Proof.
  rewrite scan_pages_flat. split.
  - rewrite fold_record_lookup.
    destruct (last_match name (all_matches findall pages 0)); reflexivity.
  - apply fold_record_NoDup. constructor.
Qed.

Lemma last_match_None (name : string) (evs : list (nat * service_match)) :
  last_match name evs = None ->
  Forall (fun e => match_name (snd e) <> name) evs.
Proof.
  induction evs as [|[p m] evs IH]; simpl; intros H; [constructor|].
  destruct (last_match name evs); [discriminate|].
  destruct (String.eqb_spec name (match_name m)) as [_|Hn]; [discriminate|].
  constructor; [simpl; congruence | now apply IH].
Qed.

Lemma last_match_Some (name : string) (evs : list (nat * service_match))
  (i : ServiceInfo) :
  last_match name evs = Some i ->
  exists evs1 p m evs2,
    evs = (evs1 ++ (p, m) :: evs2)%list
    /\ match_name m = name
    /\ i = info_of_match p m
    /\ Forall (fun e => match_name (snd e) <> name) evs2.
Proof.
  induction evs as [|[p m] evs IH]; simpl; intros H; [discriminate|].
  destruct (last_match name evs) as [i'|] eqn:E.
  - inversion H; subst i'.
    destruct (IH eq_refl) as (evs1 & p' & m' & evs2 & -> & Hn & Hi & Hall).
    exists ((p, m) :: evs1), p', m', evs2. auto.
  - destruct (String.eqb_spec name (match_name m)) as [Hn|_]; [|discriminate].
    inversion H; subst i.
    exists [], p, m, evs. repeat split; auto using last_match_None.
Qed.

Lemma all_matches_In (findall : string -> list service_match)
  (pages : list string) (k p : nat) (m : service_match) :
  In (p, m) (all_matches findall pages k) <->
  exists text,
    k <= p /\ nth_error pages (p - k) = Some text /\ In m (findall text).
Proof.
  revert k. induction pages as [|text rest IH]; intros k.
  - simpl. split; [contradiction|].
    intros (t & _ & H & _). destruct (p - k); discriminate.
  - cbn [all_matches]. rewrite in_app_iff, in_map_iff, IH. split.
    + intros [(x & Hx & Hin)|(t & Hle & Hn & Hin)].
      * inversion Hx; subst. exists text. rewrite Nat.sub_diag. auto.
      * exists t. split; [lia|]. split; [|exact Hin].
        replace (p - k) with (S (p - S k)) by lia. exact Hn.
    + intros (t & Hle & Hn & Hin).
      destruct (Nat.eq_dec p k) as [->|Hne].
      * rewrite Nat.sub_diag in Hn. inversion Hn; subst. left. eauto.
      * right. exists t. split; [lia|]. split; [|exact Hin].
        replace (p - k) with (S (p - S k)) in Hn by lia. exact Hn.
Qed.

Lemma all_matches_sorted (findall : string -> list service_match)
  (pages : list string) (k : nat) :
  StronglySorted (fun a b => fst a <= fst b) (all_matches findall pages k).
Proof.
  revert k. induction pages as [|text rest IH]; intros k; [constructor|].
  cbn [all_matches].
  induction (findall text) as [|m l IHl]; simpl; [apply IH|].
  constructor; [exact IHl|].
  rewrite Forall_forall. intros [p' m'] Hin. simpl.
  apply in_app_iff in Hin as [Hin|Hin].
  - apply in_map_iff in Hin as (x & Hx & _). inversion Hx. lia.
  - apply all_matches_In in Hin as (t & Hle & _). lia.
Qed.

Lemma sorted_split {A : Type} (R : A -> A -> Prop) (l1 l2 : list A) (x : A) :
  StronglySorted R (l1 ++ x :: l2) ->
  Forall (fun a => R a x) l1 /\ Forall (R x) l2.
Proof.
  induction l1 as [|a l1 IH]; simpl; intros H;
    inversion H as [|? ? Hs Hall]; subst.
  - split; [constructor | exact Hall].
  - destruct (IH Hs) as [H1 H2]. split; [|exact H2].
    constructor; [|exact H1].
    rewrite Forall_forall in Hall. apply Hall, in_elt.
Qed.

Lemma add_end_markers_info (n : nat) (l : list ServiceInfo) :
  map info (add_end_markers n l) = map info l.
Proof.
  induction l as [|r [|r' rest] IH]; try reflexivity.
  change (add_end_markers n (r :: r' :: rest))
    with (with_end r (start r') :: add_end_markers n (r' :: rest)).
  cbn [map]. now rewrite IH.
Qed.

(** Every range comes from an entry of the index. *)
Lemma page_ranges_from_index (findall : string -> list service_match)
  (pages : list string) (r : ServiceInfo) :
  In r (page_ranges findall pages) ->
  exists r0,
    In r0 (dict_values (scan_pages findall pages 0 [])) /\ info r = info r0.
Proof.
  unfold page_ranges. intros H.
  apply (in_map info) in H. rewrite add_end_markers_info in H.
  apply in_map_iff in H as (r0 & Hi & Hin).
  exists r0. split; [|now symmetry].
  apply in_firstn_in in Hin.
  now apply (Permutation_in _ (sorted_by_start_perm _)) in Hin.
Qed.

Lemma index_entry_is_last_match (findall : string -> list service_match)
  (pages : list string) (r0 : ServiceInfo) :
  In r0 (dict_values (scan_pages findall pages 0 [])) ->
  last_match (service_name r0) (all_matches findall pages 0) = Some r0.
Proof.
  intros H. unfold dict_values in H.
  apply in_map_iff in H as ([k v] & Hv & Hin). simpl in Hv. subst v.
  assert (Hk : k = service_name r0).
  { pose proof (fold_record_keys (all_matches findall pages 0) []
                  (Forall_nil _)) as Hall.
    rewrite <- scan_pages_flat in Hall. rewrite Forall_forall in Hall.
    exact (Hall _ Hin). }
  subst k.
  destruct (service_index_lookup findall pages (service_name r0))
    as [Hl Hnd].
  rewrite <- Hl. now apply dict_get_In.
Qed.

(** X12.  Every page range is read off a real heading: on its start page
    the service pattern matched a tuple with the range's section number and
    service name, the range's identifier being "0x" followed by the
    matched hex digits; and no later page of the document has a match with
    that service name (an index page that lists the service earlier is
    overridden by the later definition). *)
Theorem page_range_comes_from_last_heading
  (findall : string -> list service_match) (pages : list string)
  (r : ServiceInfo) :
  In r (page_ranges findall pages) ->
  (exists text hex,
     nth_error pages (start r) = Some text
     /\ In (section r, service_name r, hex) (findall text)
     /\ service_id r = "0x" ++ hex)
  /\ (forall later text m,
        start r < later ->
        nth_error pages later = Some text ->
        In m (findall text) ->
        match_name m <> service_name r).
Proof.
  intros Hr.
  destruct (page_ranges_from_index _ _ _ Hr) as (r0 & Hin & Hinfo).
  apply index_entry_is_last_match in Hin.
  apply last_match_Some in Hin as (evs1 & p & m & evs2 & Hev & Hn & Hi & Hall).
  unfold info in Hinfo. inversion Hinfo as [[Hname Hid Hsec Hstart]].
  rewrite Hname, Hid, Hsec, Hstart. clear Hinfo Hname Hid Hsec Hstart.
  assert (Hpm : In (p, m) (all_matches findall pages 0))
    by (rewrite Hev; apply in_elt).
  apply all_matches_In in Hpm as (text & _ & Hnth & Hm).
  rewrite Nat.sub_0_r in Hnth.
  destruct m as [[sec name] hex]. simpl in Hn. subst r0. simpl.
  split.
  - exists text, hex. auto.
  - intros later text' m' Hlt Hnth' Hm'.
    assert (Hin' : In (later, m') (all_matches findall pages 0)).
    { apply all_matches_In. exists text'. rewrite Nat.sub_0_r.
      split; [lia|]. auto. }
    pose proof (all_matches_sorted findall pages 0) as Hs.
    rewrite Hev in Hs, Hin'.
    apply sorted_split in Hs as [Hbefore _].
    apply in_app_iff in Hin' as [Hin'|[Hin'|Hin']].
    + rewrite Forall_forall in Hbefore. specialize (Hbefore _ Hin').
      simpl in Hbefore. lia.
    + inversion Hin'. lia.
    + rewrite Forall_forall in Hall. specialize (Hall _ Hin').
      simpl in Hall. congruence.
Qed.

Lemma page_range_comes_from_last_heading_witness :
  In {| service_name := "DiagnosticSessionControl"; service_id := "0x10";
        section := "9.2"; start := 3; end_ := Some 5 |}
     (page_ranges demo_findall demo_pages)
  /\ exists text hex,
       nth_error demo_pages 3 = Some text
       /\ In ("9.2", "DiagnosticSessionControl", hex) (demo_findall text)
       /\ "0x10" = "0x" ++ hex.
Proof.
  assert (Hin : In {| service_name := "DiagnosticSessionControl";
                      service_id := "0x10"; section := "9.2"; start := 3;
                      end_ := Some 5 |}
                   (page_ranges demo_findall demo_pages))
    by (vm_compute; left; reflexivity).
  split; [exact Hin|].
  exact (proj1 (page_range_comes_from_last_heading demo_findall demo_pages _ Hin)).
Defined.

Lemma NoDup_firstn {A : Type} (k : nat) (l : list A) :
  NoDup l -> NoDup (firstn k l).
Proof.
  intros H. rewrite <- (firstn_skipn k l) in H.
  now apply NoDup_app_remove_r in H.
Qed.

(** X13.  No service appears twice among the page ranges: their service
    names are pairwise distinct. *)
Theorem page_ranges_have_distinct_services
  (findall : string -> list service_match) (pages : list string) :
  NoDup (map service_name (page_ranges findall pages)).
Proof.
  assert (Hn : forall l, map service_name l = map (fun i => fst (fst (fst i)))
                                                  (map info l))
    by (intros l; rewrite map_map; reflexivity).
  unfold page_ranges. rewrite Hn, add_end_markers_info, <- Hn.
  rewrite <- firstn_map. apply NoDup_firstn.
  eapply Permutation_NoDup;
    [symmetry; apply Permutation_map, sorted_by_start_perm|].
  unfold dict_values. rewrite map_map.
  destruct (service_index_lookup findall pages EmptyString) as [_ Hnd].
  pose proof (fold_record_keys (all_matches findall pages 0) []
                (Forall_nil _)) as Hall.
  rewrite <- scan_pages_flat in Hall.
  erewrite map_ext_in; [exact Hnd|].
  intros kv Hkv. rewrite Forall_forall in Hall. symmetry. exact (Hall _ Hkv).
Qed.

Lemma sorted_app_le (l1 l2 : list nat) (a b : nat) :
  StronglySorted le (l1 ++ l2) -> In a l1 -> In b l2 -> a <= b.
Proof.
  induction l1 as [|x l1 IH]; simpl; intros Hs Ha Hb; [contradiction|].
  inversion Hs as [|? ? Hs' Hall]; subst.
  destruct Ha as [->|Ha]; [|now apply IH].
  rewrite Forall_forall in Hall. apply Hall, in_or_app. now right.
Qed.

(** X14.  At most five services are kept, the ones that start earliest:
    the ranges together with the services left out are, up to order, the
    entries of the index; every range starts no later than every service
    left out; and the number of ranges is the smaller of 5 and the number
    of services found. *)
Theorem page_ranges_keep_earliest_five
  (findall : string -> list service_match) (pages : list string) :
  exists dropped,
    Permutation (map info (page_ranges findall pages) ++ map info dropped)%list
                (map info (dict_values (scan_pages findall pages 0 [])))
    /\ (forall a b,
          In a (page_ranges findall pages) -> In b dropped ->
          start a <= start b)
    /\ length (page_ranges findall pages)
       = Nat.min 5 (length (scan_pages findall pages 0 [])).
Proof.
  set (values := dict_values (scan_pages findall pages 0 [])).
  exists (skipn 5 (sorted_by_start values)).
  unfold page_ranges. fold values. split; [|split].
  - rewrite add_end_markers_info, <- map_app, firstn_skipn.
    apply Permutation_map, sorted_by_start_perm.
  - intros a b Ha Hb.
    apply (in_map start) in Ha. rewrite add_end_markers_starts in Ha.
    apply (in_map start) in Hb.
    eapply sorted_app_le; [|exact Ha|exact Hb].
    rewrite <- map_app, firstn_skipn. apply sorted_by_start_sorted.
  - rewrite add_end_markers_length, length_firstn.
    rewrite (Permutation_length (sorted_by_start_perm values)).
    unfold values, dict_values. now rewrite length_map.
Qed.

Lemma page_ranges_keep_earliest_five_witness :
  length (page_ranges demo_findall demo_pages) = 3.
Proof.
  destruct (page_ranges_keep_earliest_five demo_findall demo_pages)
    as (dropped & _ & _ & Hlen).
  rewrite Hlen. reflexivity.
Defined.

(** ** The page documents of the ingestion parser *)

Lemma pages_of_ranges_tile (n : nat) (l : list ServiceInfo) (first : ServiceInfo)
  (rest : list ServiceInfo) :
  l = first :: rest ->
  StronglySorted le (map start l) ->
  Forall (fun r => start r < n) l ->
  flat_map pages_of (add_end_markers n l) = seq (start first) (n - start first).
Proof.
  revert first rest. induction l as [|r [|r' tl] IH]; intros first rest E Hs Hb.
  - discriminate.
  - inversion E; subst. simpl. unfold pages_of. simpl. apply app_nil_r.
  - inversion E; subst first rest.
    change (add_end_markers n (r :: r' :: tl))
      with (with_end r (start r') :: add_end_markers n (r' :: tl)).
    cbn [flat_map]. rewrite (IH r' tl eq_refl).
    + unfold pages_of. simpl.
      inversion Hs as [|? ? _ Hall]; subst. inversion Hall; subst.
      inversion Hb as [|? ? _ Hb']; subst. inversion Hb'; subst.
      replace (n - start r)
        with ((start r' - start r) + (n - start r')) by lia.
      rewrite seq_app. f_equal. f_equal. lia.
    + now inversion Hs.
    + now inversion Hb.
Qed.

Lemma page_document_pages (range : ServiceInfo) (pdf_pages : list plumber_page)
  (ps : list nat) :
  map doc_page (flat_map (page_document range pdf_pages) ps)
  = map S (filter (fun p => (p <? length pdf_pages)%nat) ps).
Proof.
  induction ps as [|p ps IH]; simpl; [reflexivity|].
  rewrite map_app, IH. unfold page_document at 1.
  destruct (nth_error pdf_pages p) as [page|] eqn:E.
  - assert (Hlt : p < length pdf_pages)
      by (apply nth_error_Some; congruence).
    apply Nat.ltb_lt in Hlt. rewrite Hlt. simpl. unfold doc_page. simpl.
    now rewrite Nat.add_1_r.
  - apply nth_error_None in E.
    destruct (Nat.ltb_spec p (length pdf_pages)); [lia | reflexivity].
Qed.

Lemma parse_pages (findall : string -> list service_match)
  (doc_pages : list string) (pdf_pages : list plumber_page) :
  map doc_page (parse_iso14229_pdf findall doc_pages pdf_pages)
  = map S (filter (fun p => (p <? length pdf_pages)%nat)
                  (flat_map pages_of (page_ranges findall doc_pages))).
Proof.
  unfold parse_iso14229_pdf.
  induction (page_ranges findall doc_pages) as [|r rs IH]; simpl;
    [reflexivity|].
  rewrite map_app, filter_app, map_app, IH. f_equal.
  apply page_document_pages.
Qed.

(** The pages of all ranges are the pages from the first start to the end
    of the document, and the first start is a page of the document. *)
Lemma page_ranges_tile (findall : string -> list service_match)
  (doc_pages : list string) (first : ServiceInfo) (rest : list ServiceInfo) :
  page_ranges findall doc_pages = first :: rest ->
  flat_map pages_of (page_ranges findall doc_pages)
  = seq (start first) (length doc_pages - start first)
  /\ start first < length doc_pages.
Proof.
  unfold page_ranges.
  set (l := firstn 5 (sorted_by_start
                        (dict_values (scan_pages findall doc_pages 0 [])))).
  intros E.
  assert (Hsorted : StronglySorted le (map start l)).
  { subst l. rewrite <- firstn_map. apply firstn_sorted, sorted_by_start_sorted. }
  assert (Hbound : Forall (fun r => start r < length doc_pages) l)
    by apply sorted_ranges_starts.
  destruct l as [|f0 l0] eqn:El.
  - discriminate E.
  - assert (Hst : start f0 = start first).
    { pose proof (add_end_markers_starts (length doc_pages) (f0 :: l0)) as Hm.
      rewrite E in Hm. simpl in Hm. now inversion Hm. }
    rewrite (pages_of_ranges_tile _ _ f0 l0 eq_refl Hsorted Hbound), Hst.
    split; [reflexivity|]. inversion Hbound; subst. lia.
Qed.

Lemma filter_all {A : Type} (f : A -> bool) (l : list A) :
  (forall x, In x l -> f x = true) -> filter f l = l.
Proof.
  induction l as [|x l IH]; simpl; intros H; [reflexivity|].
  rewrite (H x) by auto. f_equal. apply IH. auto.
Qed.

(** X15.  The parser emits one document per page, in page order, for the
    pages from the start of the first range to the end of the document, as
    far as pdfplumber has those pages; no earlier page is emitted and no
    page is emitted twice.  When pdfplumber sees at least as many pages as
    PyMuPDF, the 1-based page numbers of the documents are exactly
    start+1, ..., page count. *)
Theorem parsed_documents_tile_the_pages
  (findall : string -> list service_match) (doc_pages : list string)
  (pdf_pages : list plumber_page) (first : ServiceInfo)
  (rest : list ServiceInfo) :
  page_ranges findall doc_pages = first :: rest ->
  map doc_page (parse_iso14229_pdf findall doc_pages pdf_pages)
  = map S (filter (fun p => (p <? length pdf_pages)%nat)
                  (seq (start first) (length doc_pages - start first)))
  /\ (length doc_pages <= length pdf_pages ->
      map doc_page (parse_iso14229_pdf findall doc_pages pdf_pages)
      = seq (start first + 1) (length doc_pages - start first)).
Proof.
  intros E. destruct (page_ranges_tile _ _ _ _ E) as [Ht _].
  rewrite parse_pages, Ht. split; [reflexivity|].
  intros Hle. rewrite filter_all.
  - rewrite seq_shift. now rewrite Nat.add_1_r.
  - intros p Hp. apply in_seq in Hp. apply Nat.ltb_lt. lia.
Qed.

Lemma parsed_documents_tile_the_pages_witness :
  map doc_page
      (parse_iso14229_pdf demo_findall demo_pages
         (repeat {| extract_text := None; extract_tables := [] |} 7))
  = [4; 5; 6; 7].
Proof.
  destruct (page_ranges demo_findall demo_pages) as [|first rest] eqn:E;
    [discriminate E|].
  destruct (parsed_documents_tile_the_pages demo_findall demo_pages
              (repeat {| extract_text := None; extract_tables := [] |} 7)
              first rest E) as [_ H].
  rewrite H by (simpl; lia).
  vm_compute in E. inversion E. reflexivity.
Defined.

(** X16.  Every document the parser emits is the rendering of one
    pdfplumber page and carries the service name, identifier and section
    of a range that contains that page; its page number is 1-based and
    lies within the range. *)
Theorem parsed_document_belongs_to_its_range
  (findall : string -> list service_match) (doc_pages : list string)
  (pdf_pages : list plumber_page) (d : Document) :
  In d (parse_iso14229_pdf findall doc_pages pdf_pages) ->
  exists r e page,
    In r (page_ranges findall doc_pages)
    /\ end_ r = Some e
    /\ start r < doc_page d <= e
    /\ nth_error pdf_pages (doc_page d - 1) = Some page
    /\ page_content d = page_content_of page
    /\ md_service_name (metadata d) = service_name r
    /\ md_service_id (metadata d) = service_id r
    /\ md_section (metadata d) = section r.
Proof.
  unfold parse_iso14229_pdf, range_documents. intros H.
  apply in_flat_map in H as (r & Hr & H).
  apply in_flat_map in H as (p & Hp & H).
  unfold page_document in H.
  destruct (nth_error pdf_pages p) as [page|] eqn:E; [|contradiction].
  destruct H as [<-|[]].
  unfold pages_of in Hp. destruct (end_ r) as [e|] eqn:Ee; [|contradiction].
  apply in_seq in Hp.
  exists r, e, page. unfold doc_page. simpl.
  replace (p + 1 - 1) with p by lia.
  repeat split; auto; lia.
Qed.

Lemma parsed_document_belongs_to_its_range_witness :
  exists d r e page,
    In d (parse_iso14229_pdf demo_findall demo_pages
            (repeat {| extract_text := Some " 9.2 ";
                       extract_tables := [[[Some "SID"; None]]] |} 7))
    /\ In r (page_ranges demo_findall demo_pages)
    /\ end_ r = Some e
    /\ start r < doc_page d <= e
    /\ nth_error (repeat {| extract_text := Some " 9.2 ";
                            extract_tables := [[[Some "SID"; None]]] |} 7)
                 (doc_page d - 1) = Some page
    /\ page_content d = page_content_of page.
Proof.
  assert (Hd : exists d,
             In d (parse_iso14229_pdf demo_findall demo_pages
                     (repeat {| extract_text := Some " 9.2 ";
                                extract_tables := [[[Some "SID"; None]]] |} 7)))
    by (eexists; vm_compute; left; reflexivity).
  destruct Hd as [d Hd].
  destruct (parsed_document_belongs_to_its_range _ _ _ _ Hd)
    as (r & e & page & H1 & H2 & H3 & H4 & H5 & _).
  exists d, r, e, page.
  exact (conj Hd (conj H1 (conj H2 (conj H3 (conj H4 H5))))).
Defined.

Lemma all_matches_nil (findall : string -> list service_match)
  (pages : list string) (k : nat) :
  (forall text, In text pages -> findall text = []) ->
  all_matches findall pages k = [].
Proof.
  revert k. induction pages as [|text rest IH]; intros k H; [reflexivity|].
  cbn [all_matches]. rewrite (H text) by now left.
  simpl. apply IH. intros t Ht. apply H. now right.
Qed.

Lemma page_ranges_length (findall : string -> list service_match)
  (pages : list string) :
  length (page_ranges findall pages)
  = Nat.min 5 (length (scan_pages findall pages 0 [])).
Proof.
  unfold page_ranges.
  rewrite add_end_markers_length, length_firstn.
  rewrite (Permutation_length (sorted_by_start_perm _)).
  unfold dict_values. now rewrite length_map.
Qed.

(** X17.  When pdfplumber sees at least as many pages as PyMuPDF, the
    parser returns no document exactly when the service pattern matches on
    no page: a single heading anywhere yields at least one document. *)
Theorem no_documents_iff_no_heading
  (findall : string -> list service_match) (doc_pages : list string)
  (pdf_pages : list plumber_page) :
  length doc_pages <= length pdf_pages ->
  (parse_iso14229_pdf findall doc_pages pdf_pages = [] <->
   forall text, In text doc_pages -> findall text = []).
Proof.
  intros Hle. split.
  - intros Hnil text Hin.
    destruct (findall text) as [|m ms] eqn:Em; [reflexivity|]. exfalso.
    (* the heading is recorded in the index *)
    apply In_nth_error in Hin as [p Hp].
    assert (Hev : In (p, m) (all_matches findall doc_pages 0)).
    { apply all_matches_In. exists text. rewrite Nat.sub_0_r.
      split; [lia|]. split; [exact Hp|]. rewrite Em. now left. }
    destruct (last_match (match_name m) (all_matches findall doc_pages 0))
      as [i|] eqn:El.
    2:{ apply last_match_None in El. rewrite Forall_forall in El.
        now apply (El _ Hev). }
    destruct (service_index_lookup findall doc_pages (match_name m))
      as [Hl _].
    rewrite El in Hl.
    (* so there is a first range, and its pages are emitted *)
    destruct (page_ranges findall doc_pages) as [|first rest] eqn:E.
    { pose proof (page_ranges_length findall doc_pages) as Hlen.
      rewrite E in Hlen.
      destruct (scan_pages findall doc_pages 0 []); [discriminate Hl|].
      simpl in Hlen. lia. }
    destruct (page_ranges_tile _ _ _ _ E) as [Ht Hlt].
    pose proof (parse_pages findall doc_pages pdf_pages) as Hp'.
    rewrite Hnil, E in Hp'. rewrite <- E, Ht in Hp'.
    rewrite filter_all in Hp'
      by (intros x Hx; apply in_seq in Hx; apply Nat.ltb_lt; lia).
    destruct (length doc_pages - start first) eqn:Ed; [lia|].
    discriminate Hp'.
  - intros Hnone. unfold parse_iso14229_pdf, page_ranges.
    rewrite scan_pages_flat, (all_matches_nil _ _ _ Hnone). reflexivity.
Qed.

Lemma no_documents_iff_no_heading_witness :
  parse_iso14229_pdf (fun _ => []) demo_pages
    (repeat {| extract_text := None; extract_tables := [] |} 7) = [].
Proof.
  apply (no_documents_iff_no_heading (fun _ => []) demo_pages
           (repeat {| extract_text := None; extract_tables := [] |} 7)).
  - simpl. lia.
  - intros text _. reflexivity.
Defined.

(** ** Start-up *)

(** X18.  The module loads only when both API keys are present in the
    environment (presence is what is tested, so an empty value passes),
    and then the key sent to the weather service is defined; a missing
    Google key is reported first, whatever else is missing. *)
Theorem module_loads_iff_both_keys_present (env : environ) :
  (check_api_keys env = None <->
   (exists g, getenv env "GOOGLE_API_KEY" = Some g)
   /\ (exists k, getenv env "OPENWEATHERMAP_API_KEY" = Some k))
  /\ (getenv env "GOOGLE_API_KEY" = None ->
      check_api_keys env = Some "Google API key not found in .env file")
  /\ (forall g,
        getenv env "GOOGLE_API_KEY" = Some g ->
        getenv env "OPENWEATHERMAP_API_KEY" = None ->
        check_api_keys env
        = Some "OpenWeatherMap API key not found in .env file").
Proof.
  unfold check_api_keys, has_key, getenv.
  destruct (dict_get "GOOGLE_API_KEY" env) as [g|];
    destruct (dict_get "OPENWEATHERMAP_API_KEY" env) as [k|]; simpl;
    (split; [split; [try discriminate; eauto | intros [[? ?] [? ?]];
                                                 try discriminate; reflexivity]
            |split; [intros; try discriminate; reflexivity
                    |intros; try discriminate; reflexivity]]).
Qed.

Lemma module_loads_iff_both_keys_present_witness :
  check_api_keys [("OPENWEATHERMAP_API_KEY", "abc"); ("GOOGLE_API_KEY", EmptyString)]
  = None
  /\ check_api_keys [("QDRANT_URL", "http://localhost")]
     = Some "Google API key not found in .env file".
Proof.
  split.
  - apply (proj1 (module_loads_iff_both_keys_present
                    [("OPENWEATHERMAP_API_KEY", "abc");
                     ("GOOGLE_API_KEY", EmptyString)])).
    split; eexists; reflexivity.
  - apply (proj1 (proj2 (module_loads_iff_both_keys_present
                           [("QDRANT_URL", "http://localhost")]))).
    reflexivity.
Defined.

(** ** Order of the services that start on the same page *)

Lemma insert_by_start_filter (k : nat) (x : ServiceInfo) (l : list ServiceInfo) :
  filter (fun r => (start r =? k)%nat) (insert_by_start x l)
  = if (start x =? k)%nat
    then x :: filter (fun r => (start r =? k)%nat) l
    else filter (fun r => (start r =? k)%nat) l.
Proof.
  induction l as [|y l IH]; simpl.
  - destruct (start x =? k)%nat; reflexivity.
  - destruct (start x <=? start y)%nat eqn:Ele; simpl.
    + destruct (start x =? k)%nat; reflexivity.
    + apply Nat.leb_gt in Ele. rewrite IH.
      destruct (Nat.eqb_spec (start y) k) as [Ey|Ey];
        destruct (Nat.eqb_spec (start x) k) as [Ex|Ex];
        try reflexivity; lia.
Qed.

(** X19.  Sorting the index by start page keeps the services that start
    on the same page in the order they have in the index, the order in
    which their names first appeared in the document; the sort only
    reorders, it neither drops nor repeats an entry. *)
Theorem sorting_keeps_index_order_on_ties (k : nat) (l : list ServiceInfo) :
  filter (fun r => (start r =? k)%nat) (sorted_by_start l)
  = filter (fun r => (start r =? k)%nat) l
  /\ Permutation (sorted_by_start l) l
  /\ StronglySorted le (map start (sorted_by_start l)).
Proof.
  split; [|split; [apply sorted_by_start_perm | apply sorted_by_start_sorted]].
  induction l as [|x l IH]; simpl; [reflexivity|].
  rewrite insert_by_start_filter, IH. reflexivity.
Qed.

Lemma turn_call_budget_witness :
  exists calls,
    snd (app_invoke chatty_world (initial_state weather_query []) [])
    = ([] ++ calls)%list
    /\ 1 <= model_calls calls <= 3
    /\ retriever_calls calls + http_calls calls <= 1.
Proof.
  destruct (turn_call_budget chatty_world (initial_state weather_query []) [])
    as (calls & E & Hm & _ & _ & Hone & _).
  exists calls. exact (conj E (conj Hm Hone)).
Defined.

Lemma script_run_appends_prompt_and_reply_witness :
  exists tr',
    script_run chatty_world None (Some weather_query) []
    = ([AIMessage "Hello! How can I assist you today?";
        HumanMessage weather_query;
        AIMessage "It is hazy, 25 degrees."], None, tr').
Proof.
  destruct (script_run_appends_prompt_and_reply chatty_world
              (Some weather_query) [])
    as (suffix & failure & tr' & Hrun & _ & Hok & _).
  assert (E : exists st visited t,
             app_invoke chatty_world (chat_inputs weather_query) []
             = (Ok (st, visited), t)
             /\ response st = Some "It is hazy, 25 degrees.")
    by (do 3 eexists; split; [vm_compute; reflexivity | reflexivity]).
  destruct E as (st & visited & t & E & Hresp).
  assert (Hne : weather_query <> EmptyString) by discriminate.
  destruct (Hok weather_query st visited t eq_refl Hne E)
    as (reply & Hr & Hs & Hf & Ht).
  exists tr'. rewrite (Hrun None), Hs, Hf.
  rewrite Hresp in Hr. injection Hr as Hr. rewrite <- Hr. reflexivity.
Defined.
